(** * Half-plane intersection (algo/geo2d/halfplane-intersect.py)

    A shallow embedding of [halfplane_intersect] and of the objects it
    works on.  Coordinates are exact rationals ([Q]): Python's integers
    (such as [INF]) are exact, and floating-point rounding is not
    modelled.  The list the caller passes is a list of references into an
    object store, because the function appends to it, sorts it in place
    and assigns to the attributes of a line object that it has already
    appended. *)

From Stdlib Require Import QArith Qabs ZArith List Arith Bool Lia Permutation.
From Stdlib Require Import Sorted Lqa.
From Stdlib Require String Ascii.
Import String.StringSyntax Ascii.AsciiSyntax.
Delimit Scope string_scope with string.
Delimit Scope char_scope with char.
Import ListNotations.

Local Open Scope Q_scope.

(** ** Comparisons on rationals, as booleans *)

Definition Qltb (x y : Q) : bool :=
  match x ?= y with Lt => true | _ => false end.

(** ** Class [P]: points and vectors *)

(** Modelled from the spec: class [P] is not in the repository.  The
    header of the source file lists [rot()] (the 90 degree
    counterclockwise rotation) and [angle()]; the spec (section 4.1)
    gives [rotate90 = (-y, x)], [cross], [dot] and [angle = atan2(y, x)]. *)
Record P : Type := mkP { px : Q; py : Q }.

Definition rot (p : P) : P := mkP (- py p) (px p).
Definition padd (a b : P) : P := mkP (px a + px b) (py a + py b).
Definition psub (a b : P) : P := mkP (px a - px b) (py a - py b).
Definition pscale (a : P) (t : Q) : P := mkP (px a * t) (py a * t).
Definition cross (a b : P) : Q := px a * py b - py a * px b.
(** [a * b] on two points, used as [H[i].d * q[-1].d]. *)
Definition dot (a b : P) : Q := px a * px b + py a * py b.

(** [angle()] is only ever used as a sort key.  [atan2(y, x)] lies in
    (-pi, pi]; [arc] tells the four pieces of that range apart and inside
    an open half turn the order of two angles is the sign of the cross
    product.  [atan2(0, 0)] is [0], so the zero vector falls in piece 1. *)
Definition arc (v : P) : nat :=
  if Qltb (py v) 0 then 0%nat
  else if Qltb 0 (py v) then 2%nat
  else if Qltb (px v) 0 then 3%nat
  else 1%nat.

(** [a.angle() < b.angle()], on the exact angles.  A float [angle()] can
    tie two directions that this order tells apart; the statements on
    the order of the list are made for any key (section [AnyKey]). *)
Definition angle_ltb (a b : P) : bool :=
  (arc a <? arc b)%nat
  || ((arc a =? arc b)%nat && Nat.even (arc a) && Qltb 0 (cross a b)).

(** ** Class [L]: directed lines *)

(** A line object has two assignable attributes, [o] and [d]. *)
Record L : Type := mkL { o : P; d : P }.

(** The methods of class [L] are not in the repository either; the
    algorithm is written against this interface.  [intersection] returns
    [None] when the call raises (the Degenerate-Geometry failure). *)
Class Lmethods : Type := {
  side : L -> P -> Q;
  intersection : L -> L -> option P;
  parallel : L -> L -> bool
}.

(** Modelled from the spec: the methods of [L] as section 4.2 words them,
    with the tolerance [eps] that section mentions.  [side] is
    [cross(direction, p - origin)], [parallel] is
    [|cross(direction, other.direction)| <= eps], and [intersection] fails
    on a parallel pair and is the common point of the two lines otherwise
    (see [inter_point]). *)
Definition spec_side (l : L) (p : P) : Q := cross (d l) (psub p (o l)).

Definition spec_parallel (eps : Q) (l m : L) : bool :=
  Qle_bool (Qabs (cross (d l) (d m))) eps.

(** The point [o + d * t] of [l] that lies on [m].  The spec prints the
    numerator of [t] as [cross(other.direction, other.origin - origin)],
    which is the opposite of the value that solves the system; the source
    header and the spec both say the method returns the intersection
    point, and [inter_point_on_other] checks that this one does. *)
Definition inter_point (l m : L) : P :=
  let t := cross (psub (o m) (o l)) (d m) / cross (d l) (d m) in
  padd (o l) (pscale (d l) t).

Definition spec_intersection (eps : Q) (l m : L) : option P :=
  if spec_parallel eps l m then None else Some (inter_point l m).

Definition SpecL (eps : Q) : Lmethods :=
  {| side := spec_side;
     intersection := spec_intersection eps;
     parallel := spec_parallel eps |}.

(** The same methods with the sign of [side] reversed (positive on the
    right of the line, i.e. outside the allowed region).  Under this
    reading the comments of the source are true of its tests. *)
Definition RightL (eps : Q) : Lmethods :=
  {| side := fun l p => - spec_side l p;
     intersection := spec_intersection eps;
     parallel := spec_parallel eps |}.

(** ** The object store *)

Definition loc : Type := nat.

Record store : Type := mkStore { objs : loc -> L; next : loc }.

Definition update (st : store) (r : loc) (v : L) : store :=
  mkStore (fun r' => if (r' =? r)%nat then v else objs st r') (next st).

(** [L(o, d)]: a new object, at a reference not used before. *)
Definition new_L (v : L) (st : store) : loc * store :=
  (next st, mkStore (fun r' => if (r' =? next st)%nat then v else objs st r')
                    (S (next st))).

(** [r.o = p] and [r.d = p] *)
Definition set_o (r : loc) (p : P) (st : store) : store :=
  update st r (mkL p (d (objs st r))).
Definition set_d (r : loc) (p : P) (st : store) : store :=
  update st r (mkL (o (objs st r)) p).

(** ** Outcomes of a computation *)

Inductive error : Type := InvalidInput | DegenerateGeometry.

Inductive comp (A : Type) : Type :=
| Done (a : A)
| Raise (e : error)
| OutOfFuel.
Arguments Done {A} a.
Arguments Raise {A} e.
Arguments OutOfFuel {A}.

Definition bind {A B : Type} (c : comp A) (k : A -> comp B) : comp B :=
  match c with
  | Done a => k a
  | Raise e => Raise e
  | OutOfFuel => OutOfFuel
  end.

Notation "x <- c ;; k" := (bind c (fun x => k))
  (at level 61, c at next level, right associativity).

(** A [while] loop whose body cannot fail and whose test can. *)
Fixpoint while {S : Type} (fuel : nat) (test : S -> comp bool)
    (body : S -> S) (s : S) : comp S :=
  match fuel with
  | O => OutOfFuel
  | Datatypes.S f =>
      b <- test s ;;
      if b then while f test body (body s) else Done s
  end.

Fixpoint mapM {A B : Type} (f : A -> comp B) (l : list A) : comp (list B) :=
  match l with
  | [] => Done []
  | x :: l' => y <- f x ;; ys <- mapM f l' ;; Done (y :: ys)
  end.

(** ** The sort of line 43 *)

(** [list.sort(key=...)] is stable and ascending. *)
Fixpoint insert_by {A : Type} (ltb : A -> A -> bool) (x : A) (l : list A)
    : list A :=
  match l with
  | [] => [x]
  | y :: l' => if ltb y x then y :: insert_by ltb x l' else x :: y :: l'
  end.

Fixpoint sort_by {A : Type} (ltb : A -> A -> bool) (l : list A) : list A :=
  match l with
  | [] => []
  | x :: l' => insert_by ltb x (sort_by ltb l')
  end.

(** ** [halfplane_intersect] *)

(** [INF = 10**18] *)
Definition INF : Q := inject_Z (10 ^ 18).

(** [q[-1]], [q[-2]], [q[0]], [q[1]] on a list that is long enough. *)
Definition back (q : list loc) : loc := last q 0%nat.
Definition back2 (q : list loc) : loc := last (removelast q) 0%nat.
Definition front (q : list loc) : loc := hd 0%nat q.
Definition front2 (q : list loc) : loc := hd 0%nat (tl q).

(** [q.pop()] and [q.pop(0)] *)
Definition pop (q : list loc) : list loc := removelast q.
Definition pop0 (q : list loc) : list loc := tl q.

(** What one round of the [for] loop of lines 47-67 leaves behind. *)
Inductive flow : Type :=
| Next (q : list loc)      (* fall through or [continue] *)
| ReturnEmpty.             (* [return []] *)

Section Algorithm.

Context {LM : Lmethods}.

Definition inter (st : store) (a b : loc) : comp P :=
  match intersection (objs st a) (objs st b) with
  | Some p => Done p
  | None => Raise DegenerateGeometry
  end.

(** Lines 34-39. *)
Fixpoint bounding_loop (k : nat) (bb : loc) (st : store) (H : list loc)
    : store * list loc :=
  match k with
  | O => (st, H)
  | S k' =>
      let H1 := H ++ [bb] in
      let st1 := set_o bb (rot (o (objs st bb))) st in
      let st2 := set_d bb (rot (d (objs st1 bb))) st1 in
      bounding_loop k' bb st2 H1
  end.

Definition add_bounding (st : store) (H : list loc) : store * list loc :=
  let '(bb, st0) := new_L (mkL (mkP (- INF) (- INF)) (mkP INF 0)) st in
  bounding_loop 4 bb st0 H.

(** Line 43. *)
Definition sort_by_angle (st : store) (H : list loc) : list loc :=
  sort_by (fun a b => angle_ltb (d (objs st a)) (d (objs st b))) H.

(** Line 50: [len(q) >= 2 and H[i].side(q[-1].intersection(q[-2])) > 0]. *)
Definition back_test (st : store) (h : loc) (q : list loc) : comp bool :=
  if (2 <=? length q)%nat then
    p <- inter st (back q) (back2 q) ;;
    Done (Qltb 0 (side (objs st h) p))
  else Done false.

(** Line 54: [len(q) >= 2 and H[i].side(q[0].intersection(q[1])) > 0]. *)
Definition front_test (st : store) (h : loc) (q : list loc) : comp bool :=
  if (2 <=? length q)%nat then
    p <- inter st (front q) (front2 q) ;;
    Done (Qltb 0 (side (objs st h) p))
  else Done false.

(** Lines 57-67. *)
Definition place (st : store) (h : loc) (q : list loc) : flow :=
  match q with
  | [] => Next (q ++ [h])
  | _ :: _ =>
      if parallel (objs st h) (objs st (back q)) then
        if Qltb (dot (d (objs st h)) (d (objs st (back q)))) 0 then ReturnEmpty
        else if Qltb 0 (side (objs st h) (o (objs st (back q))))
             then Next (pop q ++ [h])
             else Next q
      else Next (q ++ [h])
  end.

(** One round of the loop of line 47, for [H[i] = h]. *)
Definition sweep_step (fuel : nat) (st : store) (h : loc) (q : list loc)
    : comp flow :=
  q1 <- while fuel (back_test st h) pop q ;;
  q2 <- while fuel (front_test st h) pop0 q1 ;;
  Done (place st h q2).

(** Lines 46-67: [None] stands for the early [return []]. *)
Fixpoint sweep (fuel : nat) (st : store) (H : list loc) (q : list loc)
    : comp (option (list loc)) :=
  match H with
  | [] => Done (Some q)
  | h :: H' =>
      f <- sweep_step fuel st h q ;;
      match f with
      | Next q' => sweep fuel st H' q'
      | ReturnEmpty => Done None
      end
  end.

(** Lines 70 and 72. *)
Definition trim_back_test (st : store) (q : list loc) : comp bool :=
  if (3 <=? length q)%nat then
    p <- inter st (back q) (back2 q) ;;
    Done (Qltb 0 (side (objs st (front q)) p))
  else Done false.

Definition trim_front_test (st : store) (q : list loc) : comp bool :=
  if (3 <=? length q)%nat then
    p <- inter st (front q) (front2 q) ;;
    Done (Qltb 0 (side (objs st (back q)) p))
  else Done false.

Definition trim (fuel : nat) (st : store) (q : list loc) : comp (list loc) :=
  q1 <- while fuel (trim_back_test st) pop q ;;
  while fuel (trim_front_test st) pop0 q1.

(** Lines 78-82. *)
Definition vertices (st : store) (q : list loc) : comp (list P) :=
  let n := length q in
  mapM (fun i => inter st (nth i q 0%nat) (nth ((i + 1) mod n) q 0%nat))
       (seq 0 n).

(** Lines 46-82, on the list as it stands after the sort. *)
Definition polygon (fuel : nat) (st : store) (H : list loc) : comp (list P) :=
  r <- sweep fuel st H [] ;;
  match r with
  | None => Done []
  | Some q =>
      q' <- trim fuel st q ;;
      if (length q' <? 3)%nat then Done [] else vertices st q'
  end.

(** The outcome of a call: the store and the caller's list as the call
    leaves them, and what the call returns or raises. *)
Record outcome : Type := mkOutcome {
  out_store : store;
  out_list : list loc;
  out_result : comp (list P)
}.

Definition halfplane_intersect_fuel (fuel : nat) (st : store) (H : list loc)
    : outcome :=
  let '(st1, H1) := add_bounding st H in
  let H2 := sort_by_angle st1 H1 in
  mkOutcome st1 H2 (polygon fuel st1 H2).

(** Every loop of the body removes one element of a deque that holds at
    most [len(H) + 4] elements, so this much fuel is never used up (see
    [call_total]). *)
Definition halfplane_intersect (st : store) (H : list loc) : outcome :=
  halfplane_intersect_fuel (S (length H + 4)) st H.

End Algorithm.

(** ** The call with the sort key left open *)

(** [angle()] belongs to the absent class [P] and returns a float, so two
    directions whose angles round to the same float tie under the key of
    line 43 although [angle_ltb] tells them apart.  Here the key is any
    function [angle] into any type [K], compared by [key_ltb] ([<] on the
    keys).  [sort_by] is the list every stable sort returns when [<] is a
    strict weak order on the keys, as it is on floats that are not NaN.
    The rest of the call is unchanged. *)
Section AnyKey.

Context {LM : Lmethods}.
Variable K : Type.
Variable angle : P -> K.
Variable key_ltb : K -> K -> bool.

(** [a.angle() <= b.angle()], on two references read through the store. *)
Definition key_le_at (st : store) (a b : loc) : Prop :=
  key_ltb (angle (d (objs st b))) (angle (d (objs st a))) = false.

(** Line 43. *)
Definition sort_by_key (st : store) (H : list loc) : list loc :=
  sort_by (fun a b => key_ltb (angle (d (objs st a))) (angle (d (objs st b))))
          H.

Definition halfplane_intersect_keyed_fuel (fuel : nat) (st : store)
    (H : list loc) : outcome :=
  let '(st1, H1) := add_bounding st H in
  let H2 := sort_by_key st1 H1 in
  mkOutcome st1 H2 (polygon fuel st1 H2).

Definition halfplane_intersect_keyed (st : store) (H : list loc) : outcome :=
  halfplane_intersect_keyed_fuel (S (length H + 4)) st H.

End AnyKey.

(** ** Building inputs *)

(** A store holding the given line objects at references 0, 1, ... and
    the list of those references. *)
Definition store_of (ls : list L) : store :=
  mkStore (fun r => nth r ls (mkL (mkP 0 0) (mkP 0 0))) (length ls).

Definition refs_of (ls : list L) : list loc := seq 0 (length ls).

Definition run {LM : Lmethods} (ls : list L) : outcome :=
  halfplane_intersect (store_of ls) (refs_of ls).

Definition line (ox oy dx dy : Z) : L :=
  mkL (mkP (inject_Z ox) (inject_Z oy)) (mkP (inject_Z dx) (inject_Z dy)).

(** Inputs used below.  [triangle] is scenario A of the spec: the
    triangle (0,0), (4,0), (0,4). *)
Definition triangle : list L :=
  [line 0 0 4 0; line 4 0 (-4) 4; line 0 4 0 (-4)].

(** x >= -1, y >= 0 and y >= x. *)
Definition corner : list L :=
  [line (-1) (-1) 0 (-1); line (-1) 0 1 0; line 0 0 1 1].

(** x >= 1 and x <= 1: two opposite lines on x = 1. *)
Definition opposite_pair : list L :=
  [line 1 1 0 (-2); line 1 (-1) 0 1].

(** A single line with the zero vector as direction. *)
Definition zero_direction : list L := [line 0 0 0 0].

(** A deque holding x >= 0 (reference 0) and y >= 0 (reference 1), whose
    lines meet in (0, 0), and three lines that may come next in angular
    order: x <= -1 (reference 2), x <= 1 (reference 3) and
    x <= 1/2000000000 (reference 4). *)
Definition quadrant_then : list L :=
  [line 0 0 0 (-1); line 0 0 1 0; line (-1) 0 0 1; line 1 0 0 1;
   mkL (mkP (1 # 2000000000) 0) (mkP 0 1)].

(** The same deque, x >= 0 (reference 0) and y >= 0 (reference 1), and
    the line x <= -1/2000000000 (reference 2), which misses the point
    (0, 0) by half the tolerance [1e-9]. *)
Definition quadrant_near : list L :=
  [line 0 0 0 (-1); line 0 0 1 0; mkL (mkP (-1 # 2000000000) 0) (mkP 0 1)].

(** Two lines of direction (1, 0): y >= 1 (reference 0), y >= 0
    (reference 1) and y >= 2 (reference 2). *)
Definition stacked : list L :=
  [line 0 1 1 0; line 0 0 1 0; line 0 2 1 0].

(** The tolerance the spec suggests, [1e-9]. *)
Definition eps9 : Q := 1 # 1000000000.

(** ** Auxiliary definitions for the statements below *)

(** The shape the four loop tests share: [len(q) >= n and l.side(a.intersection(b)) > 0]. *)
Definition side_test {LM : Lmethods} (st : store) (n : nat) (l a b : loc)
    (q : list loc) : comp bool :=
  if (n <=? length q)%nat then
    p <- inter st a b ;; Done (Qltb 0 (side (objs st l) p))
  else Done false.

(** A computation that ends, and that raises nothing but the failure of
    [intersection] when it raises. *)
Definition proper {A : Type} (c : comp A) : Prop :=
  match c with
  | Done _ => True
  | Raise e => e = DegenerateGeometry
  | OutOfFuel => False
  end.

(** The condition of line 50 and of line 54, as propositions. *)
Definition back_side_positive {LM : Lmethods} (st : store) (h : loc)
    (q : list loc) : Prop :=
  (2 <= length q)%nat /\
  exists p, intersection (objs st (back q)) (objs st (back2 q)) = Some p /\
            0 < side (objs st h) p.

Definition front_side_positive {LM : Lmethods} (st : store) (h : loc)
    (q : list loc) : Prop :=
  (2 <= length q)%nat /\
  exists p, intersection (objs st (front q)) (objs st (front2 q)) = Some p /\
            0 < side (objs st h) p.

(** The allowed region of a line is [cross(d, p - o) >= 0], its left
    side with the boundary; a point violates the line (is strictly
    outside it) when it is not in that region. *)
Definition violates (l : L) (p : P) : Prop := spec_side l p < 0.

(** The last two (the first two) lines of the deque meet in a point that
    is strictly outside the line [h]. *)
Definition back_outside (eps : Q) (st : store) (h : loc) (q : list loc)
    : Prop :=
  (2 <= length q)%nat /\
  exists p, spec_intersection eps (objs st (back q)) (objs st (back2 q))
            = Some p /\
            violates (objs st h) p.

Definition front_outside (eps : Q) (st : store) (h : loc) (q : list loc)
    : Prop :=
  (2 <= length q)%nat /\
  exists p, spec_intersection eps (objs st (front q)) (objs st (front2 q))
            = Some p /\
            violates (objs st h) p.

(** The methods of [LM] with another [side]. *)
Definition with_side (s : L -> P -> Q) (LM : Lmethods) : Lmethods :=
  {| side := s;
     intersection := @intersection LM;
     parallel := @parallel LM |}.

(** ** The bounding frame as the spec words it *)

(** Four line objects, each the rotation of the one before. *)
Fixpoint spec_bounding_loop (k : nat) (l : L) (st : store) (H : list loc)
    : store * list loc :=
  match k with
  | O => (st, H)
  | S k' =>
      let '(r, st1) := new_L l st in
      spec_bounding_loop k' (mkL (rot (o l)) (rot (d l))) st1 (H ++ [r])
  end.

Definition spec_add_bounding (st : store) (H : list loc) : store * list loc :=
  spec_bounding_loop 4 (mkL (mkP (- INF) (- INF)) (mkP INF 0)) st H.

(** Lines 43-82 run on that frame. *)
Definition polygon_on_spec_frame {LM : Lmethods} (ls : list L)
    : comp (list P) :=
  let '(st1, H1) := spec_add_bounding (store_of ls) (refs_of ls) in
  polygon (S (length ls + 4)) st1 (sort_by_angle st1 H1).

Definition Peqb (a b : P) : bool :=
  Qeq_bool (px a) (px b) && Qeq_bool (py a) (py b).

Fixpoint Plist_eqb (ps qs : list P) : bool :=
  match ps, qs with
  | [], [] => true
  | a :: ps', b :: qs' => Peqb a b && Plist_eqb ps' qs'
  | _, _ => false
  end.

(** ** Parallel lines, exactly *)

Definition nonzero (v : P) : Prop := ~ (px v == 0 /\ py v == 0).

Definition exactly_parallel (l m : L) : Prop := cross (d l) (d m) == 0.

(** No two neighbours in the deque are parallel. *)
Definition chain (st : store) (q : list loc) : Prop :=
  forall i, (S i < length q)%nat ->
    ~ exactly_parallel (objs st (nth i q 0%nat)) (objs st (nth (S i) q 0%nat)).

(** Three lines close to the vertical, no two of them parallel: line 0 is
    within the tolerance [eps9] of line 1 and of line 2, and lines 1 and
    2 are not within it of each other. *)
Definition nearly_vertical : list L :=
  [mkL (mkP (-3) (-3)) (mkP (1 # 40000000000000) (-1));
   mkL (mkP (-2) 2) (mkP (1 # 500000000) (-100000));
   line 3 1 0 (-1)].

(** ** Order and sub-sequences *)

(** [a.angle() <= b.angle()] *)
Definition angle_le (a b : P) : Prop := angle_ltb b a = false.

(** [l] is what is left of [m] when some of its entries are taken out. *)
Inductive subseq {A : Type} : list A -> list A -> Prop :=
| subseq_nil : subseq [] []
| subseq_skip (x : A) (l m : list A) : subseq l m -> subseq l (x :: m)
| subseq_keep (x : A) (l m : list A) : subseq l m -> subseq (x :: l) (x :: m).

(** * The Merkle root (HackIIK/round2/Problem: 3845/solution.py) *)

Module Merkle.

(** Transactions and digests are Python strings; [+] on them is
    [String.append]. *)
Definition str : Type := String.string.

(** What a call does: it returns, it stops on [IndexError], or (in the
    model only) its loop has used up the fuel. *)
Inductive result (A : Type) : Type :=
| Returns (a : A)
| IndexError
| Unfinished.
Arguments Returns {A} a.
Arguments IndexError {A}.
Arguments Unfinished {A}.

Section WithHash.

(** [hashlib.sha256(s.encode()).hexdigest()], a function of Python's
    library, is a parameter.  It is taken on strings that encode; module
    [Encoded] below has the step that can fail. *)
Variable sha256_hex : str -> str.

(** Lines 13-18: the [for] loop over the pairs [level[i], level[i+1]];
    [level[i+1]] does not exist for the last entry of a list of odd
    length. *)
Fixpoint hash_pairs (level : list str) : result (list str) :=
  match level with
  | [] => Returns []
  | [_] => IndexError
  | a :: b :: rest =>
      match hash_pairs rest with
      | Returns new_level => Returns (sha256_hex (String.append a b) :: new_level)
      | IndexError => IndexError
      | Unfinished => Unfinished
      end
  end.

(** Lines 10-11: [current_level.append(current_level[-1])] when the
    length is odd. *)
Definition pad_level (level : list str) : list str :=
  if (length level mod 2 =? 0)%nat then level
  else level ++ [last level String.EmptyString].

(** Lines 9-20. *)
Fixpoint reduce_levels (fuel : nat) (level : list str) : result (list str) :=
  match fuel with
  | O => Unfinished
  | S f =>
      if (1 <? length level)%nat then
        match hash_pairs (pad_level level) with
        | Returns new_level => reduce_levels f new_level
        | IndexError => IndexError
        | Unfinished => Unfinished
        end
      else Returns level
  end.

(** Lines 3-22; [current_level[0]] does not exist when the list is
    empty. *)
Definition compute_merkle_root_fuel (fuel : nat) (transactions : list str)
    : result str :=
  if (length transactions =? 1)%nat then
    Returns (sha256_hex (nth 0 transactions String.EmptyString))
  else
    match reduce_levels fuel transactions with
    | Returns current_level =>
        match current_level with
        | root :: _ => Returns root
        | [] => IndexError
        end
    | IndexError => IndexError
    | Unfinished => Unfinished
    end.

(** A level of [n] entries becomes one of [(n + 1) / 2], so the loop runs
    fewer rounds than the list is long. *)
Definition compute_merkle_root (transactions : list str) : result str :=
  compute_merkle_root_fuel (S (length transactions)) transactions.

End WithHash.

(** ** The encoding step *)

(** [s.encode()] raises [UnicodeEncodeError] on a string that holds a
    lone surrogate, and [input()] can return such a string.  Module
    [Encoded] is the same function with the two steps of lines 5 and 17
    apart: [encode], which can fail ([None]), and the digest of the
    bytes.  The definitions above are this function on strings that
    encode (see [encoded_root_agrees]). *)
Inductive ended (A : Type) : Type :=
| Value (a : A)
| RaisedIndexError
| RaisedUnicodeEncodeError
| OutOfRounds.   (* in the model only: the loop has used up the fuel *)
Arguments Value {A} a.
Arguments RaisedIndexError {A}.
Arguments RaisedUnicodeEncodeError {A}.
Arguments OutOfRounds {A}.

Definition ended_of {A : Type} (r : result A) : ended A :=
  match r with
  | Returns a => Value a
  | IndexError => RaisedIndexError
  | Unfinished => OutOfRounds
  end.

Module Encoded.

Section WithEncode.

Variable bytes : Type.
Variable encode : str -> option bytes.
Variable hexdigest : bytes -> str.

(** [hashlib.sha256(s.encode()).hexdigest()] *)
Definition sha256_of (s : str) : option str :=
  match encode s with
  | Some b => Some (hexdigest b)
  | None => None
  end.

(** Lines 13-18, the pairs from left to right. *)
Fixpoint hash_pairs (level : list str) : ended (list str) :=
  match level with
  | [] => Value []
  | [_] => RaisedIndexError
  | a :: b :: rest =>
      match sha256_of (String.append a b) with
      | None => RaisedUnicodeEncodeError
      | Some pair_hash =>
          match hash_pairs rest with
          | Value new_level => Value (pair_hash :: new_level)
          | RaisedIndexError => RaisedIndexError
          | RaisedUnicodeEncodeError => RaisedUnicodeEncodeError
          | OutOfRounds => OutOfRounds
          end
      end
  end.

(** Lines 9-20. *)
Fixpoint reduce_levels (fuel : nat) (level : list str) : ended (list str) :=
  match fuel with
  | O => OutOfRounds
  | S f =>
      if (1 <? length level)%nat then
        match hash_pairs (pad_level level) with
        | Value new_level => reduce_levels f new_level
        | RaisedIndexError => RaisedIndexError
        | RaisedUnicodeEncodeError => RaisedUnicodeEncodeError
        | OutOfRounds => OutOfRounds
        end
      else Value level
  end.

(** Lines 3-22. *)
Definition compute_merkle_root_fuel (fuel : nat) (transactions : list str)
    : ended str :=
  if (length transactions =? 1)%nat then
    match sha256_of (nth 0 transactions String.EmptyString) with
    | Some h => Value h
    | None => RaisedUnicodeEncodeError
    end
  else
    match reduce_levels fuel transactions with
    | Value current_level =>
        match current_level with
        | root :: _ => Value root
        | [] => RaisedIndexError
        end
    | RaisedIndexError => RaisedIndexError
    | RaisedUnicodeEncodeError => RaisedUnicodeEncodeError
    | OutOfRounds => OutOfRounds
    end.

Definition compute_merkle_root (transactions : list str) : ended str :=
  compute_merkle_root_fuel (S (length transactions)) transactions.

End WithEncode.

End Encoded.

(** ** [main] (lines 25-35) *)

(** How a run of the script ends. *)
Inductive exit : Type :=
| Finished
| EOFError        (* [input()] with no line left *)
| ValueError      (* [int(...)] of a string that is no integer *)
| IndexErrorExit  (* raised by [compute_merkle_root] *)
| Stuck.          (* the model of [compute_merkle_root] out of fuel *)

(** The lines printed before the run ends, and how it ends. *)
Record run : Type := mkRun { printed : list str; status : exit }.

Section WithLibrary.

Variable sha256_hex : str -> str.
(** [str.strip()] and [int(...)], [None] standing for [ValueError]. *)
Variable strip : str -> str.
Variable int : str -> option Z.

(** Line 31: [[input().strip() for _ in range(N)]], on the lines of the
    standard input that are left; [None] stands for [EOFError]. *)
Fixpoint read_transactions (n : nat) (stdin : list str)
    : option (list str * list str) :=
  match n with
  | O => Some ([], stdin)
  | S n' =>
      match stdin with
      | [] => None
      | l :: rest =>
          match read_transactions n' rest with
          | Some (ts, rest') => Some (strip l :: ts, rest')
          | None => None
          end
      end
  end.

(** Lines 28-35: the loop [for _ in range(T)]. *)
Fixpoint test_cases (t : nat) (stdin : list str) : run :=
  match t with
  | O => mkRun [] Finished
  | S t' =>
      match stdin with
      | [] => mkRun [] EOFError
      | l :: rest =>
          match int (strip l) with
          | None => mkRun [] ValueError
          | Some N =>
              match read_transactions (Z.to_nat N) rest with
              | None => mkRun [] EOFError
              | Some (transactions, rest') =>
                  match compute_merkle_root sha256_hex transactions with
                  | Returns merkle_root =>
                      let r := test_cases t' rest' in
                      mkRun (merkle_root :: printed r) (status r)
                  | IndexError => mkRun [] IndexErrorExit
                  | Unfinished => mkRun [] Stuck
                  end
              end
          end
      end
  end.

(** Lines 26-35. *)
Definition main (stdin : list str) : run :=
  match stdin with
  | [] => mkRun [] EOFError
  | l :: rest =>
      match int (strip l) with
      | None => mkRun [] ValueError
      | Some T => test_cases (Z.to_nat T) rest
      end
  end.

End WithLibrary.

(** A stand-in for the digest in examples: its argument between two
    marks. *)
Definition marked (s : str) : str :=
  String.append "<"%string (String.append s ">"%string).

(** Stand-ins for [int] and [strip] in examples: unsigned decimal
    numerals, and lines that carry no surrounding blanks. *)
Fixpoint decimal_from (acc : Z) (s : str) : option Z :=
  match s with
  | String.EmptyString => Some acc
  | String.String c s' =>
      let n := Ascii.nat_of_ascii c in
      if ((48 <=? n) && (n <=? 57))%nat
      then decimal_from (10 * acc + Z.of_nat (n - 48))%Z s'
      else None
  end.

Definition decimal (s : str) : option Z :=
  match s with
  | String.EmptyString => None
  | _ => decimal_from 0%Z s
  end.

Definition unpadded (s : str) : str := s.

End Merkle.

(** * The scan of the request log (HackIIK/round2/Problem: 3844/solution.py) *)

Module Sql.

(** Strings over the code points 0-255, one [ascii] per character. *)
Definition str : Type := String.string.

(** [str.lower()], character by character: the letters A-Z and the
    capitals 192-222 (215, the multiplication sign, apart) move up by
    32. *)
Definition lower_char (c : Ascii.ascii) : Ascii.ascii :=
  let n := Ascii.nat_of_ascii c in
  if (((65 <=? n) && (n <=? 90))
      || ((192 <=? n) && (n <=? 222) && negb (n =? 215)))%nat
  then Ascii.ascii_of_nat (n + 32)
  else c.

Fixpoint lower (s : str) : str :=
  match s with
  | String.EmptyString => String.EmptyString
  | String.String c s' => String.String (lower_char c) (lower s')
  end.

(** [s.startswith(p)] *)
Fixpoint startswith (s p : str) {struct p} : bool :=
  match p with
  | String.EmptyString => true
  | String.String a p' =>
      match s with
      | String.EmptyString => false
      | String.String b s' => Ascii.eqb a b && startswith s' p'
      end
  end.

(** [p in s] *)
Fixpoint contains (p s : str) : bool :=
  startswith s p
  || match s with
     | String.EmptyString => false
     | String.String _ s' => contains p s'
     end.

(** Lines 8-18. *)
Definition patterns : list str :=
  [ "UNION SELECT"; "or 1=1"; "SELECT"; "UPDATE"; "DELETE"; "INSERT"; "DROP";
    "%27"; "'"; "--"; "%23"; "#"; "exec xp_" ]%string.

(** Lines 19-22: the loop over the patterns. *)
Fixpoint any_pattern_in (pats : list str) (payload : str) : bool :=
  match pats with
  | [] => false
  | pat :: rest =>
      if contains (lower pat) (lower payload) then true
      else any_pattern_in rest payload
  end.

(** Lines 7-22. *)
Definition is_sql_injection (payload : str) : bool :=
  any_pattern_in patterns payload.

(** [str.isspace()] of one character. *)
Definition isspace (c : Ascii.ascii) : bool :=
  let n := Ascii.nat_of_ascii c in
  (((9 <=? n) && (n <=? 13)) || ((28 <=? n) && (n <=? 32))
   || (n =? 133) || (n =? 160))%nat.

(** [s.split()]: the maximal runs of characters that are no white
    space; [word] is the run being read. *)
Fixpoint split_from (word s : str) : list str :=
  match s with
  | String.EmptyString =>
      match word with
      | String.EmptyString => []
      | _ => [word]
      end
  | String.String c s' =>
      if isspace c
      then match word with
           | String.EmptyString => split_from String.EmptyString s'
           | _ => word :: split_from String.EmptyString s'
           end
      else split_from (String.append word (String.String c String.EmptyString)) s'
  end.

Definition split (s : str) : list str := split_from String.EmptyString s.

(** No character of [s] is white space. *)
Fixpoint blank_free (s : str) : bool :=
  match s with
  | String.EmptyString => true
  | String.String c s' => negb (isspace c) && blank_free s'
  end.

(** Line 34. *)
Definition methods : list str :=
  [ "GET"; "POST"; "HEAD"; "PUT"; "DELETE"; "OPTIONS" ]%string.

(** What lines 39-43 and 55-59 print after the five labels; [None] is
    [NULL]. *)
Record report : Type := mkReport {
  attacker_ip : option str;
  total_attempts : nat;
  first_payload : option str;
  last_payload : option str;
  count_colon : nat
}.

(** The values of the columns [No.] and [Time] are whatever pandas read
    from the file: integers, or floats (rounded above 2**53, NaN for an
    empty cell) as soon as one cell of the column is empty, or other
    objects.  Their types are left open; [number_lt] is [<] on the values
    of [No.], the only operation the script applies to them. *)
Section WithColumns.

Variable number : Type.
Variable timestamp : Type.
Variable number_lt : number -> number -> bool.

(** A row as the loop of line 26 reads it: the columns [No.] and [Time],
    and [str(row["Source"])], [str(row["Info"])]. *)
Record row : Type := mkRow {
  row_no : number;
  row_time : timestamp;
  row_source : str;
  row_info : str
}.

(** The tuples of line 36. *)
Definition attempt : Type := (number * timestamp * str * str)%type.

Definition no_of (x : attempt) : number := fst (fst (fst x)).
Definition ip_of (x : attempt) : str := snd (fst x).
Definition uri_of (x : attempt) : str := snd x.

(** Lines 27-36: what one row appends. *)
Definition row_attempt (r : row) : option attempt :=
  match split (row_info r) with
  | method :: uri :: http_ver :: _ =>
      if existsb (String.eqb method) methods
         && startswith http_ver "HTTP"%string
      then if is_sql_injection uri
           then Some (row_no r, row_time r, row_source r, uri)
           else None
      else None
  | _ => None
  end.

(** Lines 24-36. *)
Fixpoint scan (rows : list row) : list attempt :=
  match rows with
  | [] => []
  | r :: rest =>
      match row_attempt r with
      | Some x => x :: scan rest
      | None => scan rest
      end
  end.

(** Lines 50-53. *)
Definition has_colon (x : attempt) : bool :=
  contains ":"%string (uri_of x) || contains "0x3a"%string (uri_of x).

Definition count_colons (sorted : list attempt) : nat :=
  fold_left (fun n x => if has_colon x then S n else n) sorted 0%nat.

(** Lines 38-59.  [list.sort] is stable; [sort_by] is the list it leaves
    when [<] is a strict weak order on the numbers of the attempts (it is
    not one when a number is NaN). *)
Definition summary (sql_injection_attempts : list attempt) : report :=
  match sql_injection_attempts with
  | [] => mkReport None 0 None None 0
  | x :: _ =>
      let sorted :=
        sort_by (fun a b => number_lt (no_of a) (no_of b))
                sql_injection_attempts in
      mkReport (Some (ip_of (hd x sorted)))
               (length sorted)
               (Some (uri_of (hd x sorted)))
               (Some (uri_of (last sorted x)))
               (count_colons sorted)
  end.

(** Lines 24-59, on the rows of the file. *)
Definition script (rows : list row) : report := summary (scan rows).

End WithColumns.

Arguments mkRow {number timestamp} _ _ _ _.
Arguments row_no {number timestamp} _.
Arguments row_time {number timestamp} _.
Arguments row_source {number timestamp} _.
Arguments row_info {number timestamp} _.
Arguments no_of {number timestamp} _.
Arguments ip_of {number timestamp} _.
Arguments uri_of {number timestamp} _.
Arguments row_attempt {number timestamp} _.
Arguments scan {number timestamp} _.
Arguments has_colon {number timestamp} _.
Arguments count_colons {number timestamp} _.
Arguments summary {number timestamp} _ _.
Arguments script {number timestamp} _ _.

End Sql.

(** * Properties *)

(** ** Basic facts *)

Lemma Qltb_true (x y : Q) : Qltb x y = true <-> x < y.
Proof.
  unfold Qltb. rewrite Qlt_alt. destruct (x ?= y); split; congruence.
Qed.

Lemma Qltb_false (x y : Q) : Qltb x y = false <-> y <= x.
Proof.
  split; intro H.
  - apply Qnot_lt_le. intro Hlt. apply Qltb_true in Hlt. congruence.
  - destruct (Qltb x y) eqn:E; [|reflexivity].
    apply Qltb_true in E. exfalso. exact (Qle_not_lt _ _ H E).
Qed.

(** [inter_point l m] lies on both lines when they are not parallel. *)
Lemma inter_point_on_self (l m : L) :
  ~ cross (d l) (d m) == 0 -> spec_side l (inter_point l m) == 0.
Proof.
  intro Hn. unfold spec_side, inter_point, cross, psub, padd, pscale in *.
  simpl. field. exact Hn.
Qed.

Lemma inter_point_on_other (l m : L) :
  ~ cross (d l) (d m) == 0 -> spec_side m (inter_point l m) == 0.
Proof.
  intro Hn. unfold spec_side, inter_point, cross, psub, padd, pscale in *.
  simpl. field. exact Hn.
Qed.

(** The value of [t] as the spec prints it does not give a point of the
    other line: the x axis and the line x = 2. *)
Example printed_formula_off_line :
  let l := line 0 0 1 0 in
  let m := line 2 (-1) 0 1 in
  let t := cross (d m) (psub (o m) (o l)) / cross (d l) (d m) in
  ~ spec_side m (padd (o l) (pscale (d l) t)) == 0.
Proof. vm_compute. discriminate. Qed.

(** ** The bounding halfplanes (lines 34-39) *)

Lemma rot_four_times (p : P) : rot (rot (rot (rot p))) = p.
Proof.
  destruct p as [[xn xd] [yn yd]]. unfold rot, Qopp. simpl.
  now rewrite !Z.opp_involutive.
Qed.

(** Reading the store after an assignment. *)
Lemma objs_set_o (r : loc) (p : P) (st : store) (r' : loc) :
  objs (set_o r p st) r'
  = if (r' =? r)%nat then mkL p (d (objs st r)) else objs st r'.
Proof. reflexivity. Qed.

Lemma objs_set_d (r : loc) (p : P) (st : store) (r' : loc) :
  objs (set_d r p st) r'
  = if (r' =? r)%nat then mkL (o (objs st r)) p else objs st r'.
Proof. reflexivity. Qed.

(** What [k] rounds of the loop of lines 35-39 do to the list and to the
    store. *)
Lemma bounding_loop_list (k : nat) (bb : loc) : forall st H,
  snd (bounding_loop k bb st H) = H ++ repeat bb k.
Proof.
  induction k as [|k IH]; intros st H; cbn [bounding_loop repeat snd].
  - now rewrite app_nil_r.
  - rewrite IH, <- app_assoc. reflexivity.
Qed.

Lemma bounding_loop_others (k : nat) (bb r : loc) : forall st H,
  r <> bb -> objs (fst (bounding_loop k bb st H)) r = objs st r.
Proof.
  induction k as [|k IH]; intros st H Hr; cbn [bounding_loop fst];
    [reflexivity|].
  rewrite IH by exact Hr. apply Nat.eqb_neq in Hr.
  rewrite objs_set_d, Hr, objs_set_o, Hr. reflexivity.
Qed.

Lemma bounding_loop_object (k : nat) (bb : loc) : forall st H,
  objs (fst (bounding_loop k bb st H)) bb
  = mkL (Nat.iter k rot (o (objs st bb))) (Nat.iter k rot (d (objs st bb))).
Proof.
  induction k as [|k IH]; intros st H; cbn [bounding_loop fst].
  - cbn [Nat.iter nat_rect]. now destruct (objs st bb).
  - rewrite IH, !Nat.iter_succ_r.
    rewrite !objs_set_d, !objs_set_o, !Nat.eqb_refl. reflexivity.
Qed.

Lemma add_bounding_list (st : store) (H : list loc) :
  snd (add_bounding st H) = H ++ [next st; next st; next st; next st].
Proof. unfold add_bounding, new_L. apply bounding_loop_list. Qed.

Lemma add_bounding_object (st : store) (H : list loc) :
  objs (fst (add_bounding st H)) (next st)
  = mkL (mkP (- INF) (- INF)) (mkP INF 0).
Proof.
  unfold add_bounding, new_L. rewrite bounding_loop_object.
  cbn [objs]. rewrite Nat.eqb_refl. cbn [o d Nat.iter nat_rect].
  now rewrite !rot_four_times.
Qed.

Lemma add_bounding_others (st : store) (H : list loc) (r : loc) :
  r <> next st -> objs (fst (add_bounding st H)) r = objs st r.
Proof.
  intro Hr. unfold add_bounding, new_L.
  rewrite bounding_loop_others by exact Hr.
  cbn [objs]. apply Nat.eqb_neq in Hr. now rewrite Hr.
Qed.

(** C3, as the code has it: the loop appends the same reference [bb] four
    times and rotates the one object behind it in between, so once the
    loop is over the four new entries of the list all denote the line
    with origin (-INF, -INF) and direction (INF, 0): the four directions
    read through the list are equal, not four distinct ones. *)
Theorem bounding_entries_are_one_object (st : store) (H : list loc) :
  let bb := next st in
  let st' := fst (add_bounding st H) in
  let H' := snd (add_bounding st H) in
  H' = H ++ [bb; bb; bb; bb] /\
  objs st' bb = mkL (mkP (- INF) (- INF)) (mkP INF 0) /\
  map (fun r => d (objs st' r)) (skipn (length H) H')
    = [mkP INF 0; mkP INF 0; mkP INF 0; mkP INF 0].
Proof.
  cbv zeta. split; [apply add_bounding_list|].
  split; [apply add_bounding_object|].
  rewrite add_bounding_list, skipn_app, Nat.sub_diag, skipn_all.
  cbn [skipn app map]. now rewrite add_bounding_object.
Qed.

(** ** The call on the empty list *)

Section FourAliases.

Context {LM : Lmethods}.
Variable st : store.
Variable bb : loc.
Hypothesis bb_seed : objs st bb = mkL (mkP (- INF) (- INF)) (mkP INF 0).
Hypothesis parallel_itself : parallel (objs st bb) (objs st bb) = true.
Hypothesis side_of_origin :
  Qltb 0 (side (objs st bb) (o (objs st bb))) = false.

Lemma place_seed_on_seed : place st bb [bb] = Next [bb].
Proof.
  unfold place. cbn [back last]. rewrite parallel_itself, side_of_origin.
  rewrite bb_seed.
  replace (Qltb (dot _ _) 0) with false by (vm_compute; reflexivity).
  reflexivity.
Qed.

Lemma sweep_step_seed_on_seed (fuel : nat) :
  sweep_step (S fuel) st bb [bb] = Done (Next [bb]).
Proof.
  unfold sweep_step. cbn [while back_test front_test length Nat.leb bind].
  now rewrite place_seed_on_seed.
Qed.

Lemma polygon_four_aliases (fuel : nat) :
  polygon (S fuel) st (sort_by_angle st [bb; bb; bb; bb]) = Done [].
Proof.
  assert (Es : sort_by_angle st [bb; bb; bb; bb] = [bb; bb; bb; bb]).
  { assert (Ea : angle_ltb (d (objs st bb)) (d (objs st bb)) = false)
      by (rewrite bb_seed; vm_compute; reflexivity).
    unfold sort_by_angle. cbn [sort_by insert_by].
    repeat (rewrite Ea; cbn [insert_by]). reflexivity. }
  rewrite Es. unfold polygon. cbn [sweep].
  assert (E0 : sweep_step (S fuel) st bb [] = Done (Next [bb]))
    by reflexivity.
  rewrite E0. cbn [bind].
  repeat (rewrite sweep_step_seed_on_seed; cbn [bind]).
  reflexivity.
Qed.

End FourAliases.

(** The bounding line is parallel to itself for every tolerance
    [eps >= 0], and its own origin is on it. *)
Lemma seed_parallel_itself (eps : Q) :
  0 <= eps ->
  spec_parallel eps (mkL (mkP (- INF) (- INF)) (mkP INF 0))
                    (mkL (mkP (- INF) (- INF)) (mkP INF 0)) = true.
Proof.
  intro Heps. unfold spec_parallel. apply Qle_bool_iff.
  assert (E : Qabs (cross (d (mkL (mkP (- INF) (- INF)) (mkP INF 0)))
                          (d (mkL (mkP (- INF) (- INF)) (mkP INF 0)))) == 0)
    by (vm_compute; reflexivity).
  rewrite E. exact Heps.
Qed.

(** The call on the empty list, for any methods under which the bounding
    line is parallel to itself and [side] is not positive at its origin. *)
Lemma empty_input_any_methods {LM : Lmethods} (st : store) :
  parallel (mkL (mkP (- INF) (- INF)) (mkP INF 0))
           (mkL (mkP (- INF) (- INF)) (mkP INF 0)) = true ->
  Qltb 0 (side (mkL (mkP (- INF) (- INF)) (mkP INF 0)) (mkP (- INF) (- INF)))
  = false ->
  out_result (halfplane_intersect st []) = Done [].
Proof.
  intros Hpar Hside.
  unfold halfplane_intersect, halfplane_intersect_fuel.
  pose proof (add_bounding_list st []) as E1.
  pose proof (add_bounding_object st []) as E2.
  destruct (add_bounding st []) as [st1 H1]. cbn [fst snd] in E1, E2.
  cbn [out_result]. subst H1. cbn [app length Nat.add].
  apply polygon_four_aliases;
    [exact E2 | rewrite E2; exact Hpar | rewrite E2; exact Hside].
Qed.

(** C4, as the code has it: on the empty list the working set is four
    references to one line, the sweep keeps a single element and the call
    returns the empty polygon, for every tolerance [eps >= 0] of
    [parallel]; the bounding square is not returned. *)
Theorem empty_input_gives_empty_polygon (eps : Q) (st : store) :
  0 <= eps ->
  out_result (@halfplane_intersect (SpecL eps) st []) = Done [].
Proof.
  intro Heps. apply (@empty_input_any_methods (SpecL eps)).
  - now apply seed_parallel_itself.
  - vm_compute. reflexivity.
Qed.

Lemma empty_input_gives_empty_polygon_witness :
  0 <= eps9 /\
  out_result (@halfplane_intersect (SpecL eps9) (store_of []) []) = Done [].
Proof.
  split; [discriminate|].
  apply (empty_input_gives_empty_polygon eps9 (store_of [])). discriminate.
Defined.

(** The same call when [side] is positive on the right of the line. *)
Lemma empty_input_right_convention (eps : Q) (st : store) :
  0 <= eps ->
  out_result (@halfplane_intersect (RightL eps) st []) = Done [].
Proof.
  intro Heps. apply (@empty_input_any_methods (RightL eps)).
  - now apply seed_parallel_itself.
  - vm_compute. reflexivity.
Qed.

(** ** Loops that shrink a measure *)

Section While.

Context {S : Type}.
Variable test : S -> comp bool.
Variable body : S -> S.
Variable size : S -> nat.

Hypothesis test_runs : forall s, test s <> OutOfFuel.
Hypothesis body_shrinks :
  forall s, test s = Done true -> (size (body s) < size s)%nat.

(** With more fuel than the measure, the loop runs its body [k] times,
    the test being true before each of them, and stops at the first
    state where the test is false or raises. *)
Lemma while_runs (fuel : nat) : forall s,
  (size s < fuel)%nat ->
  exists k,
    (size (Nat.iter k body s) + k <= size s)%nat /\
    (forall j, (j < k)%nat -> test (Nat.iter j body s) = Done true) /\
    ((test (Nat.iter k body s) = Done false /\
      while fuel test body s = Done (Nat.iter k body s)) \/
     (exists e, test (Nat.iter k body s) = Raise e /\
                while fuel test body s = Raise e)).
Proof.
  induction fuel as [|f IH]; intros s Hs; [lia|].
  cbn [while]. destruct (test s) as [[|]|e|] eqn:Et.
  - pose proof (body_shrinks s Et) as Hb.
    destruct (IH (body s)) as (k & Hk & Hbefore & Hend); [lia|].
    exists (Datatypes.S k). rewrite Nat.iter_succ_r. cbn [bind].
    split; [lia|]. split; [|exact Hend].
    intros [|j] Hj; [exact Et|]. rewrite Nat.iter_succ_r. apply Hbefore. lia.
  - exists 0%nat. cbn [Nat.iter nat_rect bind]. split; [lia|].
    split; [intros j Hj; lia|]. left. now split.
  - exists 0%nat. cbn [Nat.iter nat_rect bind]. split; [lia|].
    split; [intros j Hj; lia|]. right. exists e. now split.
  - now destruct (test_runs s).
Qed.

Lemma while_fuel_irrelevant (fuel fuel' : nat) : forall s,
  (size s < fuel)%nat -> (size s < fuel')%nat ->
  while fuel test body s = while fuel' test body s.
Proof.
  revert fuel'. induction fuel as [|f IH]; intros fuel' s Hs Hs'; [lia|].
  destruct fuel' as [|f']; [lia|]. cbn [while].
  destruct (test s) as [[|]|e|] eqn:Et; cbn [bind]; try reflexivity.
  pose proof (body_shrinks s Et). apply IH; lia.
Qed.

Lemma while_terminates (fuel : nat) (s : S) :
  (size s < fuel)%nat -> while fuel test body s <> OutOfFuel.
Proof.
  intro Hs. destruct (while_runs fuel s Hs) as (k & _ & _ & [[_ E]|(e & _ & E)]);
    rewrite E; discriminate.
Qed.

Lemma while_result_size (fuel : nat) (s s' : S) :
  (size s < fuel)%nat -> while fuel test body s = Done s' ->
  (size s' <= size s)%nat.
Proof.
  intros Hs E.
  destruct (while_runs fuel s Hs) as (k & Hk & _ & [[_ E']|(e & _ & E')]);
    rewrite E' in E; [|discriminate].
  injection E as <-. lia.
Qed.

End While.


(** ** The deque under the loops of the body *)

Lemma length_pop (q : list loc) : length (pop q) = (length q - 1)%nat.
Proof.
  unfold pop. rewrite removelast_firstn_len, length_firstn. lia.
Qed.

Lemma length_pop0 (q : list loc) : length (pop0 q) = (length q - 1)%nat.
Proof. unfold pop0. apply length_tl. Qed.

Section Loops.

Context {LM : Lmethods}.
Variable st : store.

Lemma inter_runs (a b : loc) : inter st a b <> OutOfFuel.
Proof. unfold inter. destruct (intersection _ _); discriminate. Qed.

Lemma inter_raises (a b : loc) (e : error) :
  inter st a b = Raise e -> e = DegenerateGeometry.
Proof. unfold inter. destruct (intersection _ _); congruence. Qed.

Lemma side_test_runs n l a b q : side_test st n l a b q <> OutOfFuel.
Proof.
  unfold side_test. destruct (n <=? length q)%nat; [|discriminate].
  pose proof (inter_runs a b). destruct (inter st a b); cbn [bind]; congruence.
Qed.

Lemma side_test_true n l a b q :
  side_test st n l a b q = Done true <->
  (n <= length q)%nat /\
  exists p, intersection (objs st a) (objs st b) = Some p /\
            0 < side (objs st l) p.
Proof.
  unfold side_test, inter. destruct (Nat.leb_spec n (length q)) as [Hn|Hn].
  - destruct (intersection _ _) as [p|]; cbn [bind]; split.
    + intro E. injection E as E. apply Qltb_true in E. split; [lia|]. now exists p.
    + intros (_ & p' & E & Hp). injection E as <-. f_equal. now apply Qltb_true.
    + discriminate.
    + intros (_ & p' & E & _). discriminate.
  - split; [discriminate|]. intros (Hn' & _). lia.
Qed.

Lemma side_test_raises n l a b q e :
  side_test st n l a b q = Raise e -> e = DegenerateGeometry.
Proof.
  unfold side_test. destruct (n <=? length q)%nat; [|discriminate].
  destruct (inter st a b) eqn:E; cbn [bind]; try discriminate.
  intro E'. injection E' as <-. exact (inter_raises _ _ _ E).
Qed.

Lemma back_test_eq h q :
  back_test st h q = side_test st 2 h (back q) (back2 q) q.
Proof. reflexivity. Qed.

Lemma front_test_eq h q :
  front_test st h q = side_test st 2 h (front q) (front2 q) q.
Proof. reflexivity. Qed.

Lemma trim_back_test_eq q :
  trim_back_test st q = side_test st 3 (front q) (back q) (back2 q) q.
Proof. reflexivity. Qed.

Lemma trim_front_test_eq q :
  trim_front_test st q = side_test st 3 (back q) (front q) (front2 q) q.
Proof. reflexivity. Qed.

Lemma back_test_runs h q : back_test st h q <> OutOfFuel.
Proof. rewrite back_test_eq. apply side_test_runs. Qed.

Lemma front_test_runs h q : front_test st h q <> OutOfFuel.
Proof. rewrite front_test_eq. apply side_test_runs. Qed.

Lemma trim_back_test_runs q : trim_back_test st q <> OutOfFuel.
Proof. rewrite trim_back_test_eq. apply side_test_runs. Qed.

Lemma trim_front_test_runs q : trim_front_test st q <> OutOfFuel.
Proof. rewrite trim_front_test_eq. apply side_test_runs. Qed.

(** Each round of an inner loop takes exactly one element off the deque. *)
Lemma back_test_pop_shrinks h q :
  back_test st h q = Done true -> (length (pop q) < length q)%nat.
Proof.
  rewrite back_test_eq, side_test_true, length_pop. intros (Hn & _). lia.
Qed.

Lemma front_test_pop0_shrinks h q :
  front_test st h q = Done true -> (length (pop0 q) < length q)%nat.
Proof.
  rewrite front_test_eq, side_test_true, length_pop0. intros (Hn & _). lia.
Qed.

Lemma trim_back_test_pop_shrinks q :
  trim_back_test st q = Done true -> (length (pop q) < length q)%nat.
Proof.
  rewrite trim_back_test_eq, side_test_true, length_pop. intros (Hn & _). lia.
Qed.

Lemma trim_front_test_pop0_shrinks q :
  trim_front_test st q = Done true -> (length (pop0 q) < length q)%nat.
Proof.
  rewrite trim_front_test_eq, side_test_true, length_pop0. intros (Hn & _). lia.
Qed.

(** [place] adds at most one element. *)
Lemma place_length h q q' :
  place st h q = Next q' -> (length q' <= S (length q))%nat.
Proof.
  unfold place. destruct q as [|x q0]; [intro E; injection E as <-; cbn; lia|].
  remember (x :: q0) as q eqn:Eq. clear Eq.
  destruct (parallel _ _).
  - destruct (Qltb (dot _ _) 0); [discriminate|].
    destruct (Qltb 0 _); intro E; injection E as <-.
    + rewrite length_app, length_pop. cbn [length]. lia.
    + lia.
  - intro E. injection E as <-. rewrite length_app. cbn [length]. lia.
Qed.

End Loops.

(** ** Termination and the errors a call can raise *)

Lemma proper_bind {A B : Type} (c : comp A) (k : A -> comp B) :
  proper c -> (forall a, c = Done a -> proper (k a)) -> proper (bind c k).
Proof. destruct c; cbn; auto. Qed.

Lemma proper_mapM {A B : Type} (f : A -> comp B) (l : list A) :
  (forall x, proper (f x)) -> proper (mapM f l).
Proof.
  intro Hf. induction l as [|x l IH]; cbn [mapM]; [exact I|].
  apply proper_bind; [apply Hf|]. intros y _.
  apply proper_bind; [exact IH|]. intros ys _. exact I.
Qed.

Section Totality.

Context {LM : Lmethods}.
Variable st : store.

Lemma proper_inter (a b : loc) : proper (inter st a b).
Proof. unfold inter. destruct (intersection _ _); cbn; auto. Qed.

Lemma proper_while (test : list loc -> comp bool) (body : list loc -> list loc) :
  (forall q, test q <> OutOfFuel) ->
  (forall q e, test q = Raise e -> e = DegenerateGeometry) ->
  (forall q, test q = Done true -> (length (body q) < length q)%nat) ->
  forall fuel q, (length q < fuel)%nat -> proper (while fuel test body q).
Proof.
  intros Hruns Hraise Hshrink fuel q Hq.
  destruct (while_runs test body (@length loc) Hruns Hshrink fuel q Hq)
    as (k & _ & _ & [[_ E]|(e & Et & E)]); rewrite E; cbn; eauto.
Qed.

Lemma sweep_step_total (h : loc) (q : list loc) (fuel fuel' : nat) :
  (length q < fuel)%nat -> (length q < fuel')%nat ->
  sweep_step fuel st h q = sweep_step fuel' st h q /\
  proper (sweep_step fuel st h q) /\
  (forall q', sweep_step fuel st h q = Done (Next q') ->
              (length q' <= S (length q))%nat).
Proof.
  intros Hf Hf'. unfold sweep_step.
  rewrite (while_fuel_irrelevant (back_test st h) pop (@length loc)
             (back_test_pop_shrinks st h) fuel fuel' q Hf Hf').
  pose proof (proper_while (back_test st h) pop (back_test_runs st h)
                (fun q0 e => side_test_raises st 2 h _ _ q0 e)
                (back_test_pop_shrinks st h) fuel' q Hf') as P1.
  destruct (while fuel' (back_test st h) pop q) as [q1| |] eqn:E1;
    cbn [bind]; [|now repeat split|now destruct P1].
  assert (H1 : (length q1 <= length q)%nat).
  { apply (while_result_size (back_test st h) pop (@length loc)
             (back_test_runs st h) (back_test_pop_shrinks st h) fuel' q q1 Hf' E1). }
  rewrite (while_fuel_irrelevant (front_test st h) pop0 (@length loc)
             (front_test_pop0_shrinks st h) fuel fuel' q1) by lia.
  assert (Hq1 : (length q1 < fuel')%nat) by lia.
  pose proof (proper_while (front_test st h) pop0 (front_test_runs st h)
                (fun q0 e => side_test_raises st 2 h _ _ q0 e)
                (front_test_pop0_shrinks st h) fuel' q1 Hq1) as P2.
  destruct (while fuel' (front_test st h) pop0 q1) as [q2| |] eqn:E2;
    cbn [bind]; [|now repeat split|now destruct P2].
  assert (H2 : (length q2 <= length q1)%nat).
  { apply (while_result_size (front_test st h) pop0 (@length loc)
             (front_test_runs st h) (front_test_pop0_shrinks st h) fuel' q1 q2 Hq1 E2). }
  split; [reflexivity|]. split; [exact I|].
  intros q' E. injection E as E. apply place_length in E. lia.
Qed.

Lemma sweep_total (H : list loc) : forall (q : list loc) (fuel fuel' : nat),
  (length q + length H < fuel)%nat -> (length q + length H < fuel')%nat ->
  sweep fuel st H q = sweep fuel' st H q /\
  proper (sweep fuel st H q) /\
  (forall q', sweep fuel st H q = Done (Some q') ->
              (length q' <= length q + length H)%nat).
Proof.
  induction H as [|h H' IH]; intros q fuel fuel' Hf Hf'; cbn [sweep length] in *.
  - split; [reflexivity|]. split; [exact I|].
    intros q' E. injection E as <-. lia.
  - destruct (sweep_step_total h q fuel fuel') as (E & Pr & Hlen); [lia|lia|].
    rewrite <- E.
    destruct (sweep_step fuel st h q) as [[q1|]| |]; cbn [bind];
      [|now repeat split|now repeat split|now destruct Pr].
    specialize (Hlen q1 eq_refl).
    destruct (IH q1 fuel fuel') as (E' & Pr' & Hlen'); [lia|lia|].
    split; [exact E'|]. split; [exact Pr'|].
    intros q' Eq. specialize (Hlen' q' Eq). lia.
Qed.

Lemma trim_total (q : list loc) (fuel fuel' : nat) :
  (length q < fuel)%nat -> (length q < fuel')%nat ->
  trim fuel st q = trim fuel' st q /\ proper (trim fuel st q).
Proof.
  intros Hf Hf'. unfold trim.
  rewrite (while_fuel_irrelevant (trim_back_test st) pop (@length loc)
             (trim_back_test_pop_shrinks st) fuel fuel' q Hf Hf').
  pose proof (proper_while (trim_back_test st) pop (trim_back_test_runs st)
                (fun q0 e => side_test_raises st 3 _ _ _ q0 e)
                (trim_back_test_pop_shrinks st) fuel' q Hf') as P1.
  destruct (while fuel' (trim_back_test st) pop q) as [q1| |] eqn:E1;
    cbn [bind]; [|now split|now destruct P1].
  assert (H1 : (length q1 <= length q)%nat).
  { apply (while_result_size (trim_back_test st) pop (@length loc)
             (trim_back_test_runs st) (trim_back_test_pop_shrinks st)
             fuel' q q1 Hf' E1). }
  split.
  - apply (while_fuel_irrelevant (trim_front_test st) pop0 (@length loc)
             (trim_front_test_pop0_shrinks st)); lia.
  - rewrite (while_fuel_irrelevant (trim_front_test st) pop0 (@length loc)
             (trim_front_test_pop0_shrinks st) fuel fuel' q1) by lia.
    apply (proper_while (trim_front_test st) pop0 (trim_front_test_runs st)
             (fun q0 e => side_test_raises st 3 _ _ _ q0 e)
             (trim_front_test_pop0_shrinks st)). lia.
Qed.

Lemma proper_vertices (q : list loc) : proper (vertices st q).
Proof. unfold vertices. apply proper_mapM. intro i. apply proper_inter. Qed.

Lemma polygon_total (H : list loc) (fuel fuel' : nat) :
  (length H < fuel)%nat -> (length H < fuel')%nat ->
  polygon fuel st H = polygon fuel' st H /\ proper (polygon fuel st H).
Proof.
  intros Hf Hf'. unfold polygon.
  destruct (sweep_total H [] fuel fuel') as (E & Pr & Hlen);
    [cbn [length]; lia|cbn [length]; lia|].
  rewrite <- E.
  destruct (sweep fuel st H []) as [[q|]| |]; cbn [bind];
    [|now split|now split|now destruct Pr].
  specialize (Hlen q eq_refl). cbn [length] in Hlen.
  destruct (trim_total q fuel fuel') as (Et & Pt); [lia|lia|].
  rewrite <- Et.
  destruct (trim fuel st q) as [q'| |]; cbn [bind];
    [|now split|now destruct Pt].
  split; [reflexivity|].
  destruct (length q' <? 3)%nat; [exact I|apply proper_vertices].
Qed.

End Totality.

(** ** The sort keeps the elements *)

Lemma insert_by_perm {A : Type} (ltb : A -> A -> bool) (x : A) (l : list A) :
  Permutation (insert_by ltb x l) (x :: l).
Proof.
  induction l as [|y l IH]; cbn [insert_by]; [reflexivity|].
  destruct (ltb y x); [|reflexivity].
  rewrite IH. apply perm_swap.
Qed.

Lemma sort_by_perm {A : Type} (ltb : A -> A -> bool) (l : list A) :
  Permutation (sort_by ltb l) l.
Proof.
  induction l as [|x l IH]; cbn [sort_by]; [reflexivity|].
  rewrite insert_by_perm. now constructor.
Qed.

Lemma length_sort_by_angle (st : store) (H : list loc) :
  length (sort_by_angle st H) = length H.
Proof. apply Permutation_length, sort_by_perm. Qed.

Lemma length_working_list (st : store) (H : list loc) :
  length (sort_by_angle (fst (add_bounding st H)) (snd (add_bounding st H)))
  = (length H + 4)%nat.
Proof.
  rewrite length_sort_by_angle, add_bounding_list, length_app. reflexivity.
Qed.

Section Call.

Context {LM : Lmethods}.

Lemma halfplane_intersect_fuel_eq (fuel : nat) (st : store) (H : list loc) :
  halfplane_intersect_fuel fuel st H =
  let st1 := fst (add_bounding st H) in
  let H2 := sort_by_angle st1 (snd (add_bounding st H)) in
  mkOutcome st1 H2 (polygon fuel st1 H2).
Proof.
  unfold halfplane_intersect_fuel. now destruct (add_bounding st H).
Qed.

Lemma call_total (st : store) (H : list loc) (fuel : nat) :
  (length H + 4 < fuel)%nat ->
  halfplane_intersect_fuel fuel st H = halfplane_intersect st H /\
  proper (out_result (halfplane_intersect st H)).
Proof.
  intro Hf. unfold halfplane_intersect.
  rewrite !halfplane_intersect_fuel_eq. cbv zeta. cbn [out_result].
  pose proof (length_working_list st H) as Hlen.
  destruct (polygon_total (fst (add_bounding st H))
              (sort_by_angle (fst (add_bounding st H)) (snd (add_bounding st H)))
              fuel (S (length H + 4))) as (E & _); [lia|lia|].
  destruct (polygon_total (fst (add_bounding st H))
              (sort_by_angle (fst (add_bounding st H)) (snd (add_bounding st H)))
              (S (length H + 4)) fuel) as (_ & Pr); [lia|lia|].
  split; [now rewrite E|exact Pr].
Qed.

End Call.

(** ** The call as a whole *)

(** C10: with more fuel than [len(H) + 4] the call ends, with the outcome
    of [halfplane_intersect], which is a polygon or a raised error and
    never a loop that ran out of fuel; a round of any of the four inner
    loops takes one element off the deque, and a round of the outer loop
    (one per halfplane, [sweep] recurses on the list) adds one at most. *)
Theorem halfplane_intersect_total {LM : Lmethods} (st : store) (H : list loc)
    (fuel : nat) :
  (length H + 4 < fuel)%nat ->
  halfplane_intersect_fuel fuel st H = halfplane_intersect st H /\
  out_result (halfplane_intersect st H) <> OutOfFuel /\
  (forall s h q, back_test s h q = Done true ->
                 (length (pop q) < length q)%nat) /\
  (forall s h q, front_test s h q = Done true ->
                 (length (pop0 q) < length q)%nat) /\
  (forall s q, trim_back_test s q = Done true ->
               (length (pop q) < length q)%nat) /\
  (forall s q, trim_front_test s q = Done true ->
               (length (pop0 q) < length q)%nat) /\
  (forall s h q q', (length q < fuel)%nat ->
                    sweep_step fuel s h q = Done (Next q') ->
                    (length q' <= S (length q))%nat).
Proof.
  intro Hf. destruct (call_total st H fuel Hf) as (E & Pr).
  split; [exact E|]. split.
  { intro Eo. rewrite Eo in Pr. exact Pr. }
  split; [intros s h q; apply back_test_pop_shrinks|].
  split; [intros s h q; apply front_test_pop0_shrinks|].
  split; [intros s q; apply trim_back_test_pop_shrinks|].
  split; [intros s q; apply trim_front_test_pop0_shrinks|].
  intros s h q q' Hq.
  destruct (sweep_step_total s h q fuel fuel Hq Hq) as (_ & _ & Hlen).
  apply Hlen.
Qed.

Lemma halfplane_intersect_total_witness :
  (length (refs_of triangle) + 4 < 100)%nat /\
  @halfplane_intersect_fuel (SpecL eps9) 100 (store_of triangle) (refs_of triangle)
  = @halfplane_intersect (SpecL eps9) (store_of triangle) (refs_of triangle).
Proof.
  assert (Hf : (length (refs_of triangle) + 4 < 100)%nat) by (cbn; lia).
  split; [exact Hf|].
  exact (proj1 (@halfplane_intersect_total (SpecL eps9) (store_of triangle)
                  (refs_of triangle) 100 Hf)).
Defined.

(** C8, as the code has it: no direction is checked.  Whatever the list
    holds, zero directions included, the call goes through the sort and
    the sweep and ends with a polygon or with the failure of
    [intersection]; it never reports Invalid-Input, and every reference
    the caller supplied is still in the list after the sort. *)
Theorem directions_are_not_validated {LM : Lmethods} (st : store)
    (H : list loc) :
  proper (out_result (halfplane_intersect st H)) /\
  out_result (halfplane_intersect st H) <> Raise InvalidInput /\
  (forall r, In r H -> In r (out_list (halfplane_intersect st H))).
Proof.
  destruct (call_total st H (S (length H + 4))) as (_ & Pr); [lia|].
  split; [exact Pr|]. split.
  { intro E. rewrite E in Pr. cbn in Pr. discriminate. }
  intros r Hr. unfold halfplane_intersect.
  rewrite halfplane_intersect_fuel_eq. cbv zeta. cbn [out_list].
  eapply Permutation_in; [symmetry; apply sort_by_perm|].
  rewrite add_bounding_list. apply in_or_app. now left.
Qed.

Lemma directions_are_not_validated_witness :
  In 0%nat (refs_of zero_direction) /\
  In 0%nat (out_list (@run (SpecL eps9) zero_direction)).
Proof.
  assert (Hin : In 0%nat (refs_of zero_direction)) by (cbn; auto).
  split; [exact Hin|].
  exact (proj2 (proj2 (@directions_are_not_validated (SpecL eps9)
                  (store_of zero_direction) (refs_of zero_direction)))
           0%nat Hin).
Defined.

(** C8 as the spec states it fails: a list holding one line whose
    direction is the zero vector is answered with the empty polygon, not
    with an error. *)
Lemma zero_direction_not_rejected :
  d (objs (store_of zero_direction) 0%nat) = mkP 0 0 /\
  out_result (@run (SpecL eps9) zero_direction) = Done [] /\
  out_result (@run (SpecL eps9) zero_direction) <> Raise InvalidInput.
Proof.
  split; [reflexivity|]. split; [vm_compute; reflexivity|].
  vm_compute. discriminate.
Qed.

(** C9, as the code has it: the call works on the caller's list itself.
    When it is over that list holds the caller's references and four
    references more, for the bounding lines, sorted by angle of
    direction; every line object the caller supplied has the origin and
    the direction it had, the only object written to being the one the
    call created. *)
Theorem caller_list_after_call {LM : Lmethods} (st : store) (H : list loc) :
  let out := halfplane_intersect st H in
  exists bs,
    length bs = 4%nat /\
    out_list out = sort_by_angle (out_store out) (H ++ bs) /\
    Permutation (out_list out) (H ++ bs) /\
    length (out_list out) = (length H + 4)%nat /\
    (forall r, r <> next st -> objs (out_store out) r = objs st r).
Proof.
  cbv zeta. exists [next st; next st; next st; next st].
  unfold halfplane_intersect.
  rewrite halfplane_intersect_fuel_eq. cbv zeta. cbn [out_list out_store].
  rewrite add_bounding_list.
  split; [reflexivity|]. split; [reflexivity|]. split; [apply sort_by_perm|].
  split; [rewrite length_sort_by_angle, length_app; reflexivity|].
  intros r Hr. now apply add_bounding_others.
Qed.

Lemma caller_list_after_call_witness :
  0%nat <> next (store_of triangle) /\
  objs (out_store (@run (SpecL eps9) triangle)) 0%nat
  = objs (store_of triangle) 0%nat.
Proof.
  assert (Hr : 0%nat <> next (store_of triangle)) by (cbn; discriminate).
  split; [exact Hr|].
  destruct (@caller_list_after_call (SpecL eps9) (store_of triangle)
              (refs_of triangle)) as (bs & _ & _ & _ & _ & Hsame).
  exact (Hsame 0%nat Hr).
Defined.

(** C9 as the spec states it fails: after the call on the three lines of
    the triangle the caller's list has seven entries, in another order. *)
Lemma caller_list_changed :
  refs_of triangle = [0; 1; 2]%nat /\
  out_list (@run (SpecL eps9) triangle) = [2; 0; 3; 3; 3; 3; 1]%nat /\
  out_list (@run (SpecL eps9) triangle) <> refs_of triangle.
Proof.
  split; [reflexivity|]. split; [vm_compute; reflexivity|].
  vm_compute. discriminate.
Qed.

(** ** The pop tests of the sweep (lines 50-55) *)

Section PopLoops.

Context {LM : Lmethods}.
Variable st : store.

Lemma side_test_raise_inv n l a b q e :
  side_test st n l a b q = Raise e ->
  intersection (objs st a) (objs st b) = None /\ e = DegenerateGeometry.
Proof.
  unfold side_test, inter. destruct (n <=? length q)%nat; [|discriminate].
  destruct (intersection _ _); cbn [bind]; [discriminate|].
  intro E. injection E as <-. now split.
Qed.

(** What a loop [while test: q.pop...] of the sweep does, read off
    [while_runs]. *)
Lemma pop_loop_runs (l a b : list loc -> loc) (body : list loc -> list loc)
    (fuel : nat) (q : list loc) :
  (forall q0, side_test st 2 (l q0) (a q0) (b q0) q0 = Done true ->
              (length (body q0) < length q0)%nat) ->
  (length q < fuel)%nat ->
  let test := fun q0 => side_test st 2 (l q0) (a q0) (b q0) q0 in
  exists k,
    (forall j, (j < k)%nat -> test (Nat.iter j body q) = Done true) /\
    ((while fuel test body q = Done (Nat.iter k body q) /\
      test (Nat.iter k body q) <> Done true) \/
     (while fuel test body q = Raise DegenerateGeometry /\
      intersection (objs st (a (Nat.iter k body q)))
                   (objs st (b (Nat.iter k body q))) = None)).
Proof.
  intros Hshrink Hq test.
  destruct (while_runs test body (@length loc)
              (fun q0 => side_test_runs st 2 _ _ _ q0) Hshrink fuel q Hq)
    as (k & _ & Hbefore & Hend).
  exists k. split; [exact Hbefore|].
  destruct Hend as [[Et E]|(e & Et & E)].
  - left. split; [exact E|]. rewrite Et. discriminate.
  - right. apply side_test_raise_inv in Et. destruct Et as (Hi & ->).
    now split.
Qed.

End PopLoops.

(** The loops of lines 50 and 54, for any methods: with more fuel than the
    deque is long, the loop of line 50 pops the back [k] times, the deque
    holding at least two elements and the value of [H[i].side] at the
    intersection of its last two elements being strictly positive before
    each pop, and stops at the first deque for which that fails (or
    raises there, when [intersection] does); the loop of line 54 does the
    same at the front. *)
Lemma pop_loops_follow_the_test {LM : Lmethods} (st : store)
    (h : loc) (q : list loc) (fuel : nat) :
  (length q < fuel)%nat ->
  (exists k,
     (forall j, (j < k)%nat -> back_side_positive st h (Nat.iter j pop q)) /\
     ((while fuel (back_test st h) pop q = Done (Nat.iter k pop q) /\
       ~ back_side_positive st h (Nat.iter k pop q)) \/
      (while fuel (back_test st h) pop q = Raise DegenerateGeometry /\
       intersection (objs st (back (Nat.iter k pop q)))
                    (objs st (back2 (Nat.iter k pop q))) = None))) /\
  (exists k,
     (forall j, (j < k)%nat -> front_side_positive st h (Nat.iter j pop0 q)) /\
     ((while fuel (front_test st h) pop0 q = Done (Nat.iter k pop0 q) /\
       ~ front_side_positive st h (Nat.iter k pop0 q)) \/
      (while fuel (front_test st h) pop0 q = Raise DegenerateGeometry /\
       intersection (objs st (front (Nat.iter k pop0 q)))
                    (objs st (front2 (Nat.iter k pop0 q))) = None))).
Proof.
  intro Hq. split.
  - destruct (pop_loop_runs st (fun _ => h) back back2 pop fuel q
                (back_test_pop_shrinks st h) Hq) as (k & Hbefore & Hend).
    exists k. split.
    + intros j Hj. apply (side_test_true st 2 h). now apply Hbefore.
    + destruct Hend as [[E Hn]|[E Hi]]; [left|right]; split; auto.
      intro Hp. apply Hn. now apply (side_test_true st 2 h).
  - destruct (pop_loop_runs st (fun _ => h) front front2 pop0 fuel q
                (front_test_pop0_shrinks st h) Hq) as (k & Hbefore & Hend).
    exists k. split.
    + intros j Hj. apply (side_test_true st 2 h). now apply Hbefore.
    + destruct Hend as [[E Hn]|[E Hi]]; [left|right]; split; auto.
      intro Hp. apply Hn. now apply (side_test_true st 2 h).
Qed.

(** With [side] positive outside the line, the tests of lines 50 and 54
    are true of the points strictly outside the incoming line. *)
Lemma right_side_positive (l : L) (p : P) :
  0 < - spec_side l p <-> violates l p.
Proof. unfold violates. split; intro Hs; lra. Qed.

Lemma back_side_positive_outside (eps : Q) (st : store) (h : loc)
    (q : list loc) :
  @back_side_positive (RightL eps) st h q <-> back_outside eps st h q.
Proof.
  unfold back_side_positive, back_outside. cbn [side intersection RightL].
  split; intros (Hl & p & Hi & Hs); (split; [exact Hl|]); exists p;
    (split; [exact Hi|]); now apply right_side_positive.
Qed.

Lemma front_side_positive_outside (eps : Q) (st : store) (h : loc)
    (q : list loc) :
  @front_side_positive (RightL eps) st h q <-> front_outside eps st h q.
Proof.
  unfold front_side_positive, front_outside. cbn [side intersection RightL].
  split; intros (Hl & p & Hi & Hs); (split; [exact Hl|]); exists p;
    (split; [exact Hi|]); now apply right_side_positive.
Qed.

(** C2, as the code has it.  [side(p)] is [cross(direction, p - origin)]
    and the method [L.side] of the code is taken positive outside the
    line, which is how the comments of lines 48-49 and 52-53 read its
    tests.  With more fuel than the deque is long, the loop of line 50
    pops the back [k] times, the deque holding at least two elements and
    its last two lines meeting strictly outside [H[i]] (side value below
    zero) before each pop, and stops at the first deque for which that
    fails (or raises there, when [intersection] does); the loop of line
    54 does the same at the front.  The value is compared with zero, not
    with [-eps]. *)
Theorem sweep_pops_while_outside (eps : Q) (st : store) (h : loc)
    (q : list loc) (fuel : nat) :
  (length q < fuel)%nat ->
  (exists k,
     (forall j, (j < k)%nat -> back_outside eps st h (Nat.iter j pop q)) /\
     ((@while _ fuel (@back_test (RightL eps) st h) pop q
       = Done (Nat.iter k pop q) /\
       ~ back_outside eps st h (Nat.iter k pop q)) \/
      (@while _ fuel (@back_test (RightL eps) st h) pop q
       = Raise DegenerateGeometry /\
       spec_intersection eps (objs st (back (Nat.iter k pop q)))
                             (objs st (back2 (Nat.iter k pop q))) = None))) /\
  (exists k,
     (forall j, (j < k)%nat -> front_outside eps st h (Nat.iter j pop0 q)) /\
     ((@while _ fuel (@front_test (RightL eps) st h) pop0 q
       = Done (Nat.iter k pop0 q) /\
       ~ front_outside eps st h (Nat.iter k pop0 q)) \/
      (@while _ fuel (@front_test (RightL eps) st h) pop0 q
       = Raise DegenerateGeometry /\
       spec_intersection eps (objs st (front (Nat.iter k pop0 q)))
                             (objs st (front2 (Nat.iter k pop0 q))) = None))).
Proof.
  intro Hq.
  destruct (@pop_loops_follow_the_test (RightL eps) st h q fuel Hq)
    as ((k & Hbefore & Hend) & (k' & Hbefore' & Hend')).
  split.
  - exists k. split.
    + intros j Hj. apply back_side_positive_outside. now apply Hbefore.
    + destruct Hend as [[E Hn]|[E Hi]]; [left|right]; split; auto.
      intro Ho. apply Hn. now apply back_side_positive_outside.
  - exists k'. split.
    + intros j Hj. apply front_side_positive_outside. now apply Hbefore'.
    + destruct Hend' as [[E Hn]|[E Hi]]; [left|right]; split; auto.
      intro Ho. apply Hn. now apply front_side_positive_outside.
Qed.

Lemma sweep_pops_while_outside_witness :
  (length [0; 1]%nat < 3)%nat /\
  (exists k,
     (forall j, (j < k)%nat ->
        back_outside eps9 (store_of quadrant_then) 2%nat
          (Nat.iter j pop [0; 1]%nat)) /\
     ((@while _ 3 (@back_test (RightL eps9) (store_of quadrant_then) 2%nat)
         pop [0; 1]%nat
       = Done (Nat.iter k pop [0; 1]%nat) /\
       ~ back_outside eps9 (store_of quadrant_then) 2%nat
           (Nat.iter k pop [0; 1]%nat)) \/
      (@while _ 3 (@back_test (RightL eps9) (store_of quadrant_then) 2%nat)
         pop [0; 1]%nat
       = Raise DegenerateGeometry /\
       spec_intersection eps9
         (objs (store_of quadrant_then) (back (Nat.iter k pop [0; 1]%nat)))
         (objs (store_of quadrant_then) (back2 (Nat.iter k pop [0; 1]%nat)))
       = None))).
Proof.
  assert (Hq : (length [0; 1]%nat < 3)%nat) by (cbn; lia).
  split; [exact Hq|].
  exact (proj1 (sweep_pops_while_outside eps9 (store_of quadrant_then)
                  2%nat [0; 1]%nat 3%nat Hq)).
Defined.

(** C2 as the spec states it fails for want of the tolerance.  The deque
    holds x >= 0 and y >= 0, which meet in (0, 0), and the incoming line
    is x <= -1/2000000000: the side value of the point is minus half the
    tolerance, so by the convention of the claim the point is on the
    boundary and not outside (not below [-eps]); it is popped all the
    same, at either end. *)
Lemma pops_ignore_the_tolerance :
  let st := store_of quadrant_near in
  let q := [0; 1]%nat in
  (exists p,
     spec_intersection eps9 (objs st (back q)) (objs st (back2 q)) = Some p /\
     - eps9 <= spec_side (objs st 2%nat) p /\
     spec_side (objs st 2%nat) p < 0 /\
     @while _ 3 (@back_test (RightL eps9) st 2%nat) pop q = Done [0%nat]) /\
  (exists p,
     spec_intersection eps9 (objs st (front q)) (objs st (front2 q)) = Some p /\
     - eps9 <= spec_side (objs st 2%nat) p /\
     spec_side (objs st 2%nat) p < 0 /\
     @while _ 3 (@front_test (RightL eps9) st 2%nat) pop0 q = Done [1%nat]).
Proof.
  cbv zeta. split; eexists; (split; [vm_compute; reflexivity|]);
    (split; [vm_compute; discriminate|]);
    (split; vm_compute; reflexivity).
Qed.

(** With [L.side] itself as section 4.2 of the spec prints it (positive
    inside the line) the same tests read the other way round, against
    the comments above them: for the incoming line x <= -1 the point
    (0, 0) is outside and nothing is popped; for x <= 1 it is strictly
    inside and both loops pop. *)
Lemma pop_tests_under_spec_sign :
  let st := store_of quadrant_then in
  let q := [0; 1]%nat in
  (exists p,
     @intersection (SpecL eps9) (objs st (back q)) (objs st (back2 q)) = Some p /\
     spec_side (objs st 2%nat) p < - eps9 /\
     @while _ 3 (@back_test (SpecL eps9) st 2%nat) pop q = Done q /\
     @while _ 3 (@front_test (SpecL eps9) st 2%nat) pop0 q = Done q) /\
  (exists p,
     @intersection (SpecL eps9) (objs st (back q)) (objs st (back2 q)) = Some p /\
     eps9 < spec_side (objs st 3%nat) p /\
     @while _ 3 (@back_test (SpecL eps9) st 3%nat) pop q = Done [0%nat] /\
     @while _ 3 (@front_test (SpecL eps9) st 3%nat) pop0 q = Done [1%nat]).
Proof.
  cbv zeta. split; eexists; (split; [vm_compute; reflexivity|]);
    repeat split; vm_compute; reflexivity.
Qed.

(** ** The parallel case (lines 57-67) *)




(** With [L.side] itself as section 4.2 of the spec prints it (positive
    inside the line) the test of line 62 reads the other way round,
    against the comment of line 61.  The back of the deque is y >= 1.
    The incoming line y >= 0 is the looser of the two and the origin
    (0, 1) of the back is inside it, yet the back is popped and the line
    appended; the incoming line y >= 2 is the tighter one and the origin
    of the back violates it, yet it is the one that is skipped. *)
Lemma parallel_rule_under_spec_sign :
  let st := store_of stacked in
  (@parallel (SpecL eps9) (objs st 1%nat) (objs st 0%nat) = true /\
   0 < dot (d (objs st 1%nat)) (d (objs st 0%nat)) /\
   eps9 < spec_side (objs st 1%nat) (o (objs st 0%nat)) /\
   @place (SpecL eps9) st 1%nat [0%nat] = Next [1%nat]) /\
  (@parallel (SpecL eps9) (objs st 2%nat) (objs st 0%nat) = true /\
   0 < dot (d (objs st 2%nat)) (d (objs st 0%nat)) /\
   spec_side (objs st 2%nat) (o (objs st 0%nat)) < - eps9 /\
   @place (SpecL eps9) st 2%nat [0%nat] = Next [0%nat]).
Proof.
  cbv zeta. repeat split; vm_compute; reflexivity.
Qed.

(** ** Comparisons with zero *)

Section SignOnly.

Context {LM : Lmethods}.
Variable s : L -> P -> Q.
Hypothesis same_sign : forall l p, 0 < s l p <-> 0 < side l p.

Local Abbreviation LM' := (with_side s LM).








End SignOnly.





(** ** Two calls that go wrong *)

(** C1 on the lines x >= -1, y >= 0, y >= x, with [side] as the spec
    defines it: the call returns three vertices, and the vertex (-1, -1)
    is outside the halfplane y >= 0 by more than the tolerance. *)
Theorem containment_fails_on_corner :
  exists ps v l,
    out_result (@run (SpecL eps9) corner) = Done ps /\
    length ps = 3%nat /\
    nth_error ps 2 = Some v /\
    nth_error corner 1 = Some l /\
    px v == -1 /\ py v == -1 /\
    spec_side l v < - eps9.
Proof.
  eexists. eexists. eexists.
  split; [vm_compute; reflexivity|].
  split; [reflexivity|].
  split; [reflexivity|].
  split; [reflexivity|].
  repeat split; vm_compute; reflexivity.
Qed.

(** The same call when [side] is positive on the right of the line: the
    vertex (-1, -1) is returned again. *)
Lemma containment_fails_right_convention :
  exists ps v l,
    out_result (@run (RightL eps9) corner) = Done ps /\
    nth_error ps 2 = Some v /\
    nth_error corner 1 = Some l /\
    px v == -1 /\ py v == -1 /\
    spec_side l v < - eps9.
Proof.
  eexists. eexists. eexists.
  split; [vm_compute; reflexivity|].
  split; [reflexivity|].
  split; [reflexivity|].
  repeat split; vm_compute; reflexivity.
Qed.

(** C6 on the lines x >= 1 and x <= 1, both with a non-zero direction:
    the sweep and the trim leave the deque [x >= 1; bounding line;
    x <= 1], and the last call of the vertex loop, on the wraparound
    pair, is on two parallel lines and raises. *)
Theorem parallel_pair_reaches_intersection :
  let out := @run (SpecL eps9) opposite_pair in
  let st := out_store out in
  Forall (fun l => ~ (px (d l) == 0 /\ py (d l) == 0)) opposite_pair /\
  @sweep (SpecL eps9) 7 st (out_list out) [] = Done (Some [0; 2; 1]%nat) /\
  @trim (SpecL eps9) 7 st [0; 2; 1]%nat = Done [0; 2; 1]%nat /\
  @parallel (SpecL eps9) (objs st 1%nat) (objs st 0%nat) = true /\
  @intersection (SpecL eps9) (objs st 1%nat) (objs st 0%nat) = None /\
  out_result out = Raise DegenerateGeometry.
Proof.
  cbv zeta. split.
  { repeat constructor; intros [Hx Hy]; vm_compute in Hy; discriminate. }
  repeat split; vm_compute; reflexivity.
Qed.

(** The same call when [side] is positive on the right of the line. *)
Lemma parallel_pair_right_convention :
  out_result (@run (RightL eps9) opposite_pair) = Raise DegenerateGeometry /\
  out_result (@run (RightL 0) opposite_pair) = Raise DegenerateGeometry.
Proof. split; vm_compute; reflexivity. Qed.

(** ** The bounding frame as the spec words it, compared *)

(** The spec's frame has four directions and the one of the code has one. *)
Lemma spec_frame_directions (st : store) :
  let '(st1, H1) := spec_add_bounding st [] in
  map (fun r => d (objs st1 r)) H1
  = [mkP INF 0; rot (mkP INF 0); rot (rot (mkP INF 0));
     rot (rot (rot (mkP INF 0)))].
Proof.
  unfold spec_add_bounding, spec_bounding_loop, new_L.
  cbn [app map objs next o d].
  rewrite !Nat.eqb_refl.
  replace (next st =? S (next st))%nat with false
    by (symmetry; apply Nat.eqb_neq; lia).
  replace (next st =? S (S (next st)))%nat with false
    by (symmetry; apply Nat.eqb_neq; lia).
  replace (next st =? S (S (S (next st))))%nat with false
    by (symmetry; apply Nat.eqb_neq; lia).
  replace (S (next st) =? S (S (next st)))%nat with false
    by (symmetry; apply Nat.eqb_neq; lia).
  replace (S (next st) =? S (S (S (next st))))%nat with false
    by (symmetry; apply Nat.eqb_neq; lia).
  replace (S (S (next st)) =? S (S (S (next st))))%nat with false
    by (symmetry; apply Nat.eqb_neq; lia).
  reflexivity.
Qed.

(** With that frame, and [side] positive on the right of the line, the
    three calls above come out as the spec describes: the empty list
    gives the bounding square, the vertices returned for [corner] are
    inside its three halfplanes, and [opposite_pair] raises nothing. *)
Lemma spec_frame_calls :
  (exists ps,
     @polygon_on_spec_frame (RightL eps9) [] = Done ps /\
     Plist_eqb ps
       [mkP (- INF) (- INF); mkP INF (- INF); mkP INF INF; mkP (- INF) INF]
     = true) /\
  (exists ps,
     @polygon_on_spec_frame (RightL eps9) corner = Done ps /\
     ps <> [] /\
     forallb (fun v => forallb (fun l => Qle_bool (- eps9) (spec_side l v))
                               corner) ps = true) /\
  (exists ps, @polygon_on_spec_frame (RightL eps9) opposite_pair = Done ps).
Proof.
  split; [|split].
  - eexists. split; vm_compute; reflexivity.
  - eexists. split; [vm_compute; reflexivity|].
    split; [discriminate|]. vm_compute. reflexivity.
  - eexists. vm_compute. reflexivity.
Qed.

(** ** What an exact [parallel] guards *)

(** Positions in the deque. *)
Lemma nth_removelast (q : list loc) : forall i,
  (S i < length q)%nat -> nth i (removelast q) 0%nat = nth i q 0%nat.
Proof.
  induction q as [|a q IH]; intros i Hi; [cbn in Hi; lia|].
  destruct q as [|b q]; [cbn in Hi; lia|].
  cbn [removelast]. destruct i as [|i]; [reflexivity|].
  cbn [nth]. apply IH. cbn [length] in *. lia.
Qed.

Lemma back_nth (q : list loc) : back q = nth (length q - 1) q 0%nat.
Proof.
  unfold back. induction q as [|a q IH]; [reflexivity|].
  destruct q as [|b q]; [reflexivity|].
  cbn [last]. cbn [last] in IH. rewrite IH. cbn [length].
  rewrite !Nat.sub_1_r. cbn [Nat.pred]. reflexivity.
Qed.

Lemma back2_nth (q : list loc) :
  (2 <= length q)%nat -> back2 q = nth (length q - 2) q 0%nat.
Proof.
  intro Hq. unfold back2. fold (back (removelast q)).
  rewrite back_nth. fold (pop q). rewrite length_pop.
  unfold pop. replace (length q - 1 - 1)%nat with (length q - 2)%nat by lia.
  apply nth_removelast. lia.
Qed.

Lemma front_nth (q : list loc) : front q = nth 0 q 0%nat.
Proof. now destruct q. Qed.

Lemma front2_nth (q : list loc) : front2 q = nth 1 q 0%nat.
Proof. destruct q as [|a [|b q]]; reflexivity. Qed.

Section Chain.

Variable st : store.

Lemma chain_pop0 (q : list loc) : chain st q -> chain st (pop0 q).
Proof.
  intros Hc i Hi. unfold pop0 in *. destruct q as [|a q]; [cbn in Hi; lia|].
  cbn [tl] in *. apply (Hc (S i)). cbn [length]. lia.
Qed.

Lemma chain_pop (q : list loc) : chain st q -> chain st (pop q).
Proof.
  intros Hc i Hi. rewrite length_pop in Hi. unfold pop.
  rewrite !nth_removelast by lia. apply Hc. lia.
Qed.

Lemma chain_push (q : list loc) (h : loc) :
  chain st q ->
  (q <> [] -> ~ exactly_parallel (objs st (back q)) (objs st h)) ->
  chain st (q ++ [h]).
Proof.
  intros Hc Hb i Hi. rewrite length_app in Hi. cbn [length] in Hi.
  destruct (Nat.eq_dec (S i) (length q)) as [E|E].
  - rewrite app_nth1 by lia. rewrite E, nth_middle.
    replace i with (length q - 1)%nat by lia. rewrite <- back_nth.
    apply Hb. intros ->. cbn in E. lia.
  - rewrite !app_nth1 by lia. apply Hc. lia.
Qed.

Lemma chain_back_pair (q : list loc) :
  chain st q -> (2 <= length q)%nat ->
  ~ exactly_parallel (objs st (back2 q)) (objs st (back q)).
Proof.
  intros Hc Hq. rewrite back_nth, back2_nth by exact Hq.
  replace (length q - 1)%nat with (S (length q - 2)) by lia.
  apply Hc. lia.
Qed.

Lemma chain_front_pair (q : list loc) :
  chain st q -> (2 <= length q)%nat ->
  ~ exactly_parallel (objs st (front q)) (objs st (front2 q)).
Proof.
  intros Hc Hq. rewrite front_nth, front2_nth. apply Hc. lia.
Qed.

End Chain.

(** The test [parallel] with tolerance 0. *)
Lemma spec_parallel_exact (l m : L) :
  spec_parallel 0 l m = true <-> exactly_parallel l m.
Proof.
  unfold spec_parallel, exactly_parallel. rewrite Qle_bool_iff. split.
  - intro Ha. apply Qabs_Qle_condition in Ha. destruct Ha as [Hlo Hhi].
    apply Qle_antisym; [exact Hhi|exact Hlo].
  - intro E. rewrite E. discriminate.
Qed.

Lemma spec_parallel_exact_false (l m : L) :
  spec_parallel 0 l m = false <-> ~ exactly_parallel l m.
Proof.
  rewrite <- spec_parallel_exact. destruct (spec_parallel 0 l m); split;
    congruence.
Qed.

Lemma exactly_parallel_sym (l m : L) :
  exactly_parallel l m -> exactly_parallel m l.
Proof.
  unfold exactly_parallel. intro E.
  assert (F : cross (d m) (d l) == - cross (d l) (d m))
    by (unfold cross; ring).
  rewrite F, E. reflexivity.
Qed.

(** Two lines parallel to a third one with a non-zero direction are
    parallel to each other; read the other way round. *)
Lemma exactly_parallel_trans (h b b' : L) :
  exactly_parallel h b -> ~ exactly_parallel b' b -> nonzero (d h) ->
  ~ exactly_parallel b' h.
Proof.
  unfold exactly_parallel, nonzero. intros Hhb Hbb Hh Hbh. apply Hh.
  assert (Ex : cross (d b') (d b) * px (d h)
               == cross (d h) (d b) * px (d b') + cross (d b') (d h) * px (d b))
    by (unfold cross; ring).
  assert (Ey : cross (d b') (d b) * py (d h)
               == cross (d h) (d b) * py (d b') + cross (d b') (d h) * py (d b))
    by (unfold cross; ring).
  rewrite Hhb, Hbh in Ex, Ey.
  assert (Ex0 : cross (d b') (d b) * px (d h) == 0) by (rewrite Ex; ring).
  assert (Ey0 : cross (d b') (d b) * py (d h) == 0) by (rewrite Ey; ring).
  apply Qmult_integral in Ex0, Ey0.
  destruct Ex0 as [E|Ex0]; [contradiction|].
  destruct Ey0 as [E|Ey0]; [contradiction|]. now split.
Qed.

Lemma spec_intersection_exact (l m : L) :
  ~ exactly_parallel l m -> spec_intersection 0 l m = Some (inter_point l m).
Proof.
  intro Hn. unfold spec_intersection.
  apply spec_parallel_exact_false in Hn. now rewrite Hn.
Qed.

Section ExactParallel.

Variable s : L -> P -> Q.
Variable st : store.

Local Abbreviation LM0 := (with_side s (SpecL 0)).

Lemma inter_exact (a b : loc) :
  ~ exactly_parallel (objs st a) (objs st b) ->
  exists p, @inter LM0 st a b = Done p.
Proof.
  intro Hn. unfold inter. cbn [intersection with_side SpecL].
  rewrite spec_intersection_exact by exact Hn. eauto.
Qed.

Lemma side_test_exact (n : nat) (l a b : loc) (q : list loc) :
  ((n <= length q)%nat -> ~ exactly_parallel (objs st a) (objs st b)) ->
  exists r, @side_test LM0 st n l a b q = Done r.
Proof.
  intro Hn. unfold side_test. destruct (Nat.leb_spec n (length q)) as [Hl|Hl].
  - destruct (inter_exact a b (Hn Hl)) as [p E]. rewrite E. cbn [bind]. eauto.
  - eauto.
Qed.

(** A loop whose test cannot raise on a chain and whose body keeps the
    chain ends on a chain. *)
Lemma guarded_loop (test : list loc -> comp bool)
    (body : list loc -> list loc) :
  (forall q, chain st q -> exists r, test q = Done r) ->
  (forall q, test q = Done true -> (length (body q) < length q)%nat) ->
  (forall q, chain st q -> chain st (body q)) ->
  forall fuel q, (length q < fuel)%nat -> chain st q ->
  exists q', while fuel test body q = Done q' /\ chain st q' /\
             (length q' <= length q)%nat.
Proof.
  intros Hdone Hshrink Hkeep fuel.
  induction fuel as [|f IH]; intros q Hq Hc; [lia|].
  cbn [while]. destruct (Hdone q Hc) as [[|] E]; rewrite E; cbn [bind].
  - pose proof (Hshrink q E) as Hb.
    destruct (IH (body q)) as (q' & Ew & Hc' & Hl); [lia|now apply Hkeep|].
    exists q'. repeat split; [exact Ew|exact Hc'|lia].
  - exists q. repeat split; [exact Hc|lia].
Qed.

Lemma back_loop_exact (h : loc) (fuel : nat) (q : list loc) :
  (length q < fuel)%nat -> chain st q ->
  exists q', while fuel (@back_test LM0 st h) pop q = Done q' /\
             chain st q' /\ (length q' <= length q)%nat.
Proof.
  apply guarded_loop.
  - intros q0 Hc. apply (side_test_exact 2 h). intro Hl.
    intro Hp. apply (chain_back_pair st q0 Hc Hl).
    now apply exactly_parallel_sym.
  - apply (@back_test_pop_shrinks LM0).
  - apply chain_pop.
Qed.

Lemma front_loop_exact (h : loc) (fuel : nat) (q : list loc) :
  (length q < fuel)%nat -> chain st q ->
  exists q', while fuel (@front_test LM0 st h) pop0 q = Done q' /\
             chain st q' /\ (length q' <= length q)%nat.
Proof.
  apply guarded_loop.
  - intros q0 Hc. apply (side_test_exact 2 h). intro Hl.
    apply (chain_front_pair st q0 Hc Hl).
  - apply (@front_test_pop0_shrinks LM0).
  - apply chain_pop0.
Qed.

Lemma trim_back_loop_exact (fuel : nat) (q : list loc) :
  (length q < fuel)%nat -> chain st q ->
  exists q', while fuel (@trim_back_test LM0 st) pop q = Done q' /\
             chain st q' /\ (length q' <= length q)%nat.
Proof.
  apply guarded_loop.
  - intros q0 Hc. apply (side_test_exact 3 (front q0)). intro Hl.
    intro Hp. apply (chain_back_pair st q0 Hc); [lia|].
    now apply exactly_parallel_sym.
  - apply (@trim_back_test_pop_shrinks LM0).
  - apply chain_pop.
Qed.

Lemma trim_front_loop_exact (fuel : nat) (q : list loc) :
  (length q < fuel)%nat -> chain st q ->
  exists q', while fuel (@trim_front_test LM0 st) pop0 q = Done q' /\
             chain st q' /\ (length q' <= length q)%nat.
Proof.
  apply guarded_loop.
  - intros q0 Hc. apply (side_test_exact 3 (back q0)). intro Hl.
    apply (chain_front_pair st q0 Hc). lia.
  - apply (@trim_front_test_pop0_shrinks LM0).
  - apply chain_pop0.
Qed.

Lemma place_chain (h : loc) (q q' : list loc) :
  chain st q -> nonzero (d (objs st h)) ->
  @place LM0 st h q = Next q' -> chain st q'.
Proof.
  intros Hc Hh. unfold place. destruct q as [|x q0].
  { intro E. injection E as <-.
    apply (chain_push st [] h); [exact Hc|congruence]. }
  remember (x :: q0) as q eqn:Eq.
  assert (Hne : q <> []) by (subst q; discriminate). clear Eq.
  cbn [parallel with_side SpecL].
  destruct (spec_parallel 0 (objs st h) (objs st (back q))) eqn:Ep.
  - apply spec_parallel_exact in Ep.
    destruct (Qltb (dot _ _) 0); [discriminate|].
    destruct (Qltb 0 _); intro E; injection E as <-; [|exact Hc].
    apply chain_push; [now apply chain_pop|]. intro Hpop.
    assert (Hl : (2 <= length q)%nat).
    { destruct (pop q) eqn:Eq; [congruence|].
      pose proof (length_pop q) as Hlen. rewrite Eq in Hlen.
      cbn [length] in Hlen. lia. }
    change (back (pop q)) with (back2 q).
    apply (exactly_parallel_trans _ (objs st (back q))); [exact Ep| |exact Hh].
    now apply chain_back_pair.
  - apply spec_parallel_exact_false in Ep. intro E. injection E as <-.
    apply chain_push; [exact Hc|]. intros _ Hp. apply Ep.
    now apply exactly_parallel_sym.
Qed.

Lemma sweep_step_exact (h : loc) (q : list loc) (fuel : nat) :
  (length q < fuel)%nat -> chain st q -> nonzero (d (objs st h)) ->
  exists f, @sweep_step LM0 fuel st h q = Done f /\
            forall q', f = Next q' ->
                       chain st q' /\ (length q' <= S (length q))%nat.
Proof.
  intros Hq Hc Hh. unfold sweep_step.
  destruct (back_loop_exact h fuel q Hq Hc) as (q1 & E1 & Hc1 & Hl1).
  rewrite E1. cbn [bind].
  destruct (front_loop_exact h fuel q1) as (q2 & E2 & Hc2 & Hl2);
    [lia|exact Hc1|].
  rewrite E2. cbn [bind]. eexists. split; [reflexivity|].
  intros q' E. split; [now apply (place_chain h q2)|].
  apply (@place_length LM0) in E. lia.
Qed.

Lemma sweep_exact (fuel : nat) (H : list loc) : forall q,
  Forall (fun r => nonzero (d (objs st r))) H ->
  chain st q -> (length q + length H < fuel)%nat ->
  exists r, @sweep LM0 fuel st H q = Done r /\
            forall q', r = Some q' ->
                       chain st q' /\ (length q' <= length q + length H)%nat.
Proof.
  induction H as [|h H' IH]; intros q Hnz Hc Hf; cbn [sweep length] in *.
  - eexists. split; [reflexivity|]. intros q' E. injection E as <-.
    split; [exact Hc|lia].
  - inversion Hnz as [|h0 H0 Hh Hnz' Eq]. subst.
    destruct (sweep_step_exact h q fuel) as (f & E & Hf'); [lia|exact Hc|exact Hh|].
    rewrite E. cbn [bind]. destruct f as [q1|].
    + destruct (Hf' q1 eq_refl) as (Hc1 & Hl1).
      destruct (IH q1 Hnz' Hc1) as (r & Er & Hr); [lia|].
      exists r. split; [exact Er|]. intros q' Eq'.
      destruct (Hr q' Eq') as (Hc' & Hl'). split; [exact Hc'|lia].
    + eexists. split; [reflexivity|]. discriminate.
Qed.

Lemma trim_exact (fuel : nat) (q : list loc) :
  (length q < fuel)%nat -> chain st q ->
  exists q', @trim LM0 fuel st q = Done q' /\ chain st q'.
Proof.
  intros Hq Hc. unfold trim.
  destruct (trim_back_loop_exact fuel q Hq Hc) as (q1 & E1 & Hc1 & Hl1).
  rewrite E1. cbn [bind].
  destruct (trim_front_loop_exact fuel q1) as (q2 & E2 & Hc2 & _);
    [lia|exact Hc1|].
  exists q2. now split.
Qed.

Lemma mapM_done {A B : Type} (f : A -> comp B) (l : list A) :
  (forall x, In x l -> exists y, f x = Done y) ->
  exists ys, mapM f l = Done ys.
Proof.
  induction l as [|x l IH]; intro Hf; cbn [mapM]; [eauto|].
  destruct (Hf x) as [y E]; [now left|]. rewrite E. cbn [bind].
  destruct IH as [ys Eys]; [intros x' Hx'; apply Hf; now right|].
  rewrite Eys. cbn [bind]. eauto.
Qed.

(** In the vertex loop only the wraparound pair is not a pair of
    neighbours. *)
Lemma vertices_exact (q : list loc) :
  chain st q ->
  ~ exactly_parallel (objs st (back q)) (objs st (front q)) ->
  exists ps, @vertices LM0 st q = Done ps.
Proof.
  intros Hc Hw. unfold vertices. apply mapM_done. intros i Hi.
  apply in_seq in Hi. cbn [Nat.add] in Hi. destruct Hi as [_ Hi].
  apply inter_exact.
  destruct (Nat.eq_dec (i + 1) (length q)) as [E|E].
  - rewrite E, Nat.Div0.mod_same.
    replace i with (length q - 1)%nat by lia.
    rewrite <- back_nth, <- front_nth. exact Hw.
  - rewrite Nat.mod_small by lia. rewrite Nat.add_1_r. apply Hc. lia.
Qed.

End ExactParallel.

(** X5: with an exact [parallel] (tolerance 0), whatever [side] is, and
    non-zero directions in the caller's list: the sweep and the trim call
    [intersection] on neighbours of a deque in which no two neighbours
    are parallel, so they raise nothing, and the call either returns a
    polygon or raises in the vertex loop, on the wraparound pair. *)
Lemma exact_parallel_call (s : L -> P -> Q) (st : store) (H : list loc) :
  Forall (fun r => nonzero (d (objs st r))) H ->
  let out := @halfplane_intersect (with_side s (SpecL 0)) st H in
  (exists ps, out_result out = Done ps) \/
  (exists q0 q,
     @sweep (with_side s (SpecL 0)) (S (length H + 4)) (out_store out)
       (out_list out) [] = Done (Some q0) /\
     @trim (with_side s (SpecL 0)) (S (length H + 4)) (out_store out) q0
       = Done q /\
     chain (out_store out) q /\
     exactly_parallel (objs (out_store out) (back q))
                      (objs (out_store out) (front q)) /\
     out_result out = Raise DegenerateGeometry).
Proof.
  intro Hnz. cbv zeta. unfold halfplane_intersect.
  rewrite halfplane_intersect_fuel_eq. cbv zeta.
  cbn [out_result out_store out_list].
  set (st1 := fst (add_bounding st H)).
  set (H2 := sort_by_angle st1 (snd (add_bounding st H))).
  assert (Hlen : length H2 = (length H + 4)%nat)
    by apply length_working_list.
  assert (Hnz2 : Forall (fun r => nonzero (d (objs st1 r))) H2).
  { apply Forall_forall. intros r Hr.
    destruct (Nat.eq_dec r (next st)) as [->|Hne].
    - unfold st1. rewrite add_bounding_object. cbn [d].
      intros [Hx _]. vm_compute in Hx. discriminate.
    - unfold st1. rewrite add_bounding_others by exact Hne.
      assert (Hin : In r (H ++ [next st; next st; next st; next st])).
      { rewrite <- add_bounding_list.
        eapply Permutation_in; [apply sort_by_perm|exact Hr]. }
      apply in_app_or in Hin. destruct Hin as [Hin|Hin].
      + rewrite Forall_forall in Hnz. now apply Hnz.
      + cbn in Hin. intuition congruence. }
  assert (Hc0 : chain st1 []) by (intros i Hi; cbn in Hi; lia).
  unfold polygon.
  destruct (sweep_exact s st1 (S (length H + 4)) H2 [] Hnz2 Hc0)
    as (r & Er & Hr); [cbn [length]; lia|].
  rewrite Er. cbn [bind]. destruct r as [q0|]; [|left; eauto].
  destruct (Hr q0 eq_refl) as (Hcq & Hlq). cbn [length] in Hlq.
  destruct (trim_exact s st1 (S (length H + 4)) q0) as (q & Et & Hct);
    [lia|exact Hcq|].
  rewrite Et. cbn [bind].
  destruct (length q <? 3)%nat; [left; eauto|].
  destruct (Qeq_dec (cross (d (objs st1 (back q))) (d (objs st1 (front q)))) 0)
    as [Hp|Hp].
  - pose proof (@proper_vertices (with_side s (SpecL 0)) st1 q) as Pv.
    destruct (vertices st1 q) as [ps|e|]; [left; eauto| |contradiction].
    cbn in Pv. subst e. right. exists q0, q. repeat split; assumption.
  - left. now apply vertices_exact.
Qed.

(** With the tolerance the spec suggests that guard is lost.  No two of
    the three lines of [nearly_vertical] are parallel.  Line 0 is within
    the tolerance of line 1 and takes its place at the back of the deque,
    next to line 2, which it is within the tolerance of as well; the pop
    test for the bounding line then calls [intersection] on the two. *)
Lemma tolerance_pair_reaches_intersection :
  let out := @run (SpecL eps9) nearly_vertical in
  let st := out_store out in
  (nonzero (d (objs st 0%nat)) /\ nonzero (d (objs st 1%nat)) /\
   nonzero (d (objs st 2%nat))) /\
  (~ exactly_parallel (objs st 0%nat) (objs st 1%nat) /\
   ~ exactly_parallel (objs st 0%nat) (objs st 2%nat) /\
   ~ exactly_parallel (objs st 1%nat) (objs st 2%nat)) /\
  out_list out = [2; 1; 0; 3; 3; 3; 3]%nat /\
  @sweep (SpecL eps9) 8 st [2; 1; 0]%nat [] = Done (Some [2; 0]%nat) /\
  @parallel (SpecL eps9) (objs st 0%nat) (objs st 2%nat) = true /\
  @sweep (SpecL eps9) 8 st (out_list out) [] = Raise DegenerateGeometry /\
  out_result out = Raise DegenerateGeometry /\
  out_result (@run (SpecL 0) nearly_vertical) = Done [].
Proof.
  cbv zeta. split; [|split].
  - split; [|split]; intros [_ Hy]; vm_compute in Hy; discriminate.
  - split; [|split]; intro Hp; vm_compute in Hp; discriminate.
  - split; [vm_compute; reflexivity|].
    split; [vm_compute; reflexivity|].
    split; [vm_compute; reflexivity|].
    split; [vm_compute; reflexivity|].
    split; vm_compute; reflexivity.
Qed.

(** * More on [halfplane_intersect] *)

(** ** The size of the polygon *)

Lemma mapM_length {A B : Type} (f : A -> comp B) (l : list A) (ys : list B) :
  mapM f l = Done ys -> length ys = length l.
Proof.
  revert ys. induction l as [|x l IH]; intros ys; cbn [mapM].
  - intro E. injection E as <-. reflexivity.
  - destruct (f x) as [y| |]; cbn [bind]; try discriminate.
    destruct (mapM f l) as [ys'| |]; cbn [bind]; try discriminate.
    intro E. injection E as <-. cbn [length]. f_equal. now apply IH.
Qed.

Lemma trim_length {LM : Lmethods} (st : store) (fuel : nat) (q q' : list loc) :
  (length q < fuel)%nat -> trim fuel st q = Done q' ->
  (length q' <= length q)%nat.
Proof.
  intros Hf. unfold trim.
  destruct (while fuel (trim_back_test st) pop q) as [q1| |] eqn:E1;
    cbn [bind]; try discriminate.
  intro E2.
  pose proof (while_result_size (trim_back_test st) pop (@length loc)
                (trim_back_test_runs st) (trim_back_test_pop_shrinks st)
                fuel q q1 Hf E1) as H1.
  assert (Hf1 : (length q1 < fuel)%nat) by lia.
  pose proof (while_result_size (trim_front_test st) pop0 (@length loc)
                (trim_front_test_runs st) (trim_front_test_pop0_shrinks st)
                fuel q1 q' Hf1 E2) as H2.
  lia.
Qed.

(** What a call returns when it returns: the deque the vertices were
    read off. *)
Lemma returned_polygon {LM : Lmethods} (st : store) (H : list loc)
    (ps : list P) :
  out_result (halfplane_intersect st H) = Done ps ->
  let out := halfplane_intersect st H in
  ps = [] \/
  exists q0 q,
    sweep (S (length H + 4)) (out_store out) (out_list out) [] = Done (Some q0) /\
    trim (S (length H + 4)) (out_store out) q0 = Done q /\
    (3 <= length q)%nat /\
    vertices (out_store out) q = Done ps.
Proof.
  cbv zeta. unfold halfplane_intersect.
  rewrite halfplane_intersect_fuel_eq. cbv zeta.
  cbn [out_result out_store out_list]. unfold polygon.
  destruct (sweep _ _ _ []) as [[q0|]| |] eqn:Es; cbn [bind];
    try discriminate.
  - destruct (trim _ _ q0) as [q| |] eqn:Et; cbn [bind]; try discriminate.
    destruct (Nat.ltb_spec (length q) 3) as [Hl|Hl].
    + intro E. injection E as <-. now left.
    + intro E. right. exists q0, q.
      split; [reflexivity|]. split; [exact Et|]. split; [exact Hl|exact E].
  - intro E. injection E as <-. now left.
Qed.

(** X1: a call that returns, returns the empty list or at least three
    and at most [len(H) + 4] vertices. *)
Theorem polygon_size {LM : Lmethods} (st : store) (H : list loc)
    (ps : list P) :
  out_result (halfplane_intersect st H) = Done ps ->
  ps = [] \/ (3 <= length ps <= length H + 4)%nat.
Proof.
  intro E. destruct (returned_polygon st H ps E) as [->|(q0 & q & Es & Et & Hl & Ev)];
    [now left|right].
  apply mapM_length in Ev. rewrite length_seq in Ev. rewrite Ev.
  split; [exact Hl|].
  unfold halfplane_intersect in Es, Et.
  rewrite halfplane_intersect_fuel_eq in Es, Et. cbv zeta in Es, Et.
  cbn [out_store out_list] in Es, Et.
  pose proof (length_working_list st H) as Hw.
  destruct (sweep_total (fst (add_bounding st H))
              (sort_by_angle (fst (add_bounding st H)) (snd (add_bounding st H)))
              [] (S (length H + 4)) (S (length H + 4)))
    as (_ & _ & Hs); [cbn [length]; lia|cbn [length]; lia|].
  specialize (Hs q0 Es). cbn [length] in Hs.
  apply trim_length in Et; lia.
Qed.

Lemma polygon_size_witness :
  exists ps,
    out_result (@run (SpecL eps9) corner) = Done ps /\
    (ps = [] \/ (3 <= length ps <= length (refs_of corner) + 4)%nat).
Proof.
  eexists. split; [vm_compute; reflexivity|].
  apply (@polygon_size (SpecL eps9) (store_of corner) (refs_of corner)).
  vm_compute. reflexivity.
Defined.

(** ** The deque is a sub-sequence of the list *)

Lemma subseq_refl {A : Type} (l : list A) : subseq l l.
Proof. induction l; [constructor|now apply subseq_keep]. Qed.

Lemma subseq_nil_l {A : Type} (l : list A) : subseq [] l.
Proof. induction l; constructor; assumption. Qed.

Lemma subseq_trans {A : Type} (l m n : list A) :
  subseq l m -> subseq m n -> subseq l n.
Proof.
  intros Hlm Hmn. revert l Hlm.
  induction Hmn as [|x m n Hmn IH|x m n Hmn IH]; intros l Hlm.
  - exact Hlm.
  - constructor. now apply IH.
  - inversion Hlm as [|y l' m' Hl'|y l' m' Hl']; subst.
    + apply subseq_skip. now apply IH.
    + apply subseq_keep. now apply IH.
Qed.

Lemma subseq_tl {A : Type} (l : list A) : subseq (tl l) l.
Proof. destruct l; [constructor|]. apply subseq_skip, subseq_refl. Qed.

Lemma subseq_removelast {A : Type} (l : list A) : subseq (removelast l) l.
Proof.
  induction l as [|a l IH]; [constructor|].
  destruct l as [|b l]; [apply subseq_skip, subseq_nil|].
  cbn [removelast]. cbn [removelast] in IH. now apply subseq_keep.
Qed.

Lemma subseq_app {A : Type} (l m l' m' : list A) :
  subseq l m -> subseq l' m' -> subseq (l ++ l') (m ++ m').
Proof.
  intros H1 H2. induction H1; cbn [app];
    [exact H2|now apply subseq_skip|now apply subseq_keep].
Qed.

Lemma subseq_app_r {A : Type} (l m n : list A) :
  subseq l m -> subseq l (m ++ n).
Proof.
  intro Hs. rewrite <- (app_nil_r l). apply subseq_app; [exact Hs|].
  apply subseq_nil_l.
Qed.

Lemma subseq_In {A : Type} (l m : list A) (x : A) :
  subseq l m -> In x l -> In x m.
Proof.
  intro Hs. induction Hs as [|y l m Hs IH|y l m Hs IH]; cbn [In]; intuition.
Qed.

Lemma subseq_length {A : Type} (l m : list A) :
  subseq l m -> (length l <= length m)%nat.
Proof. intro Hs. induction Hs; cbn [length]; lia. Qed.

Lemma subseq_StronglySorted {A : Type} (R : A -> A -> Prop) (l m : list A) :
  subseq l m -> StronglySorted R m -> StronglySorted R l.
Proof.
  intro Hs. induction Hs as [|y l m Hs IH|y l m Hs IH]; intro Hm.
  - constructor.
  - apply StronglySorted_inv in Hm. now apply IH.
  - apply StronglySorted_inv in Hm. destruct Hm as [Hm Hy].
    constructor; [now apply IH|].
    rewrite Forall_forall in *. intros x Hx. apply Hy.
    now apply (subseq_In l m).
Qed.

Section Subsequence.

Context {LM : Lmethods}.
Variable st : store.

(** A loop that pops keeps a sub-sequence. *)
Lemma while_subseq (test : list loc -> comp bool)
    (body : list loc -> list loc) :
  (forall q, subseq (body q) q) ->
  forall fuel q q', while fuel test body q = Done q' -> subseq q' q.
Proof.
  intros Hb fuel. induction fuel as [|f IH]; intros q q'; cbn [while];
    [discriminate|].
  destruct (test q) as [[|]| |]; cbn [bind]; try discriminate.
  - intro E. apply (subseq_trans _ (body q)); [now apply IH|apply Hb].
  - intro E. injection E as <-. apply subseq_refl.
Qed.

Lemma place_subseq (h : loc) (q q' : list loc) :
  place st h q = Next q' -> subseq q' (q ++ [h]).
Proof.
  unfold place. destruct q as [|x q0].
  { intro E. injection E as <-. apply subseq_refl. }
  remember (x :: q0) as q eqn:Eq. clear Eq.
  destruct (parallel _ _).
  - destruct (Qltb (dot _ _) 0); [discriminate|].
    destruct (Qltb 0 _); intro E; injection E as <-.
    + apply subseq_app; [apply subseq_removelast|apply subseq_refl].
    + apply subseq_app_r, subseq_refl.
  - intro E. injection E as <-. apply subseq_refl.
Qed.

Lemma sweep_step_subseq (fuel : nat) (h : loc) (q q' : list loc) :
  sweep_step fuel st h q = Done (Next q') -> subseq q' (q ++ [h]).
Proof.
  unfold sweep_step.
  destruct (while fuel (back_test st h) pop q) as [q1| |] eqn:E1;
    cbn [bind]; try discriminate.
  destruct (while fuel (front_test st h) pop0 q1) as [q2| |] eqn:E2;
    cbn [bind]; try discriminate.
  intro E. injection E as E. apply place_subseq in E.
  apply (while_subseq _ pop subseq_removelast) in E1.
  apply (while_subseq _ pop0 subseq_tl) in E2.
  apply (subseq_trans _ (q2 ++ [h])); [exact E|].
  apply subseq_app; [|apply subseq_refl].
  now apply (subseq_trans _ q1).
Qed.

Lemma sweep_subseq (fuel : nat) (H : list loc) : forall (seen q q' : list loc),
  subseq q seen -> sweep fuel st H q = Done (Some q') ->
  subseq q' (seen ++ H).
Proof.
  induction H as [|h H' IH]; intros seen q q' Hq; cbn [sweep].
  - intro E. injection E as <-. now rewrite app_nil_r.
  - destruct (sweep_step fuel st h q) as [[q1|]| |] eqn:E1; cbn [bind];
      try discriminate.
    intro E. apply sweep_step_subseq in E1.
    replace (seen ++ h :: H') with ((seen ++ [h]) ++ H')
      by (rewrite <- app_assoc; reflexivity).
    apply (IH (seen ++ [h]) q1); [|exact E].
    apply (subseq_trans _ (q ++ [h])); [exact E1|].
    apply subseq_app; [exact Hq|apply subseq_refl].
Qed.

Lemma trim_subseq (fuel : nat) (q q' : list loc) :
  trim fuel st q = Done q' -> subseq q' q.
Proof.
  unfold trim.
  destruct (while fuel (trim_back_test st) pop q) as [q1| |] eqn:E1;
    cbn [bind]; try discriminate.
  intro E2.
  apply (while_subseq _ pop subseq_removelast) in E1.
  apply (while_subseq _ pop0 subseq_tl) in E2.
  now apply (subseq_trans _ q1).
Qed.

End Subsequence.

(** ** The order of the angles *)

Lemma arc_cases (v : P) :
  (arc v = 0%nat /\ py v < 0) \/
  (arc v = 1%nat /\ py v == 0 /\ 0 <= px v) \/
  (arc v = 2%nat /\ 0 < py v) \/
  (arc v = 3%nat /\ py v == 0 /\ px v < 0).
Proof.
  unfold arc.
  destruct (Qltb (py v) 0) eqn:E1; [apply Qltb_true in E1; now left|].
  apply Qltb_false in E1.
  destruct (Qltb 0 (py v)) eqn:E2; [apply Qltb_true in E2; right; right; now left|].
  apply Qltb_false in E2.
  assert (Ey : py v == 0) by (now apply Qle_antisym).
  destruct (Qltb (px v) 0) eqn:E3.
  - apply Qltb_true in E3. right; right; right. now repeat split.
  - apply Qltb_false in E3. right; left. now repeat split.
Qed.

Lemma angle_ltb_false (a b : P) :
  angle_ltb a b = false <->
  (arc b <= arc a)%nat /\
  (arc a = arc b -> Nat.even (arc a) = true -> cross a b <= 0).
Proof.
  unfold angle_ltb. rewrite orb_false_iff, !andb_false_iff.
  rewrite Nat.ltb_ge, Nat.eqb_neq, Qltb_false. split.
  - intros (Hle & [[Hne|He]|Hc]); split; auto; intros; congruence.
  - intros (Hle & Hc). split; [exact Hle|].
    destruct (Nat.eq_dec (arc a) (arc b)) as [E|E]; [|now left; left].
    destruct (Nat.even (arc a)) eqn:Ev; [|now left; right].
    right. now apply Hc.
Qed.

Lemma cross_three (a b c : P) :
  cross c a * py b == cross c b * py a + cross b a * py c.
Proof. unfold cross. ring. Qed.

(** [<=] on angles is transitive. *)
Lemma angle_le_trans (a b c : P) :
  angle_le a b -> angle_le b c -> angle_le a c.
Proof.
  unfold angle_le. rewrite !angle_ltb_false.
  intros (Hab & Cab) (Hbc & Cbc). split; [lia|].
  intros Eca Hev.
  assert (Ecb : arc c = arc b) by lia.
  assert (Eba : arc b = arc a) by lia.
  assert (Hevb : Nat.even (arc b) = true) by (rewrite <- Ecb; exact Hev).
  specialize (Cab Eba Hevb). specialize (Cbc Ecb Hev).
  pose proof (cross_three a b c) as Id.
  destruct (arc_cases a) as [(Ea & Ha)|[(Ea & _)|[(Ea & Ha)|(Ea & _)]]];
    destruct (arc_cases b) as [(Eb & Hb)|[(Eb & _)|[(Eb & Hb)|(Eb & _)]]];
    destruct (arc_cases c) as [(Ec & Hc)|[(Ec & _)|[(Ec & Hc)|(Ec & _)]]];
    try lia;
    try (rewrite Ec in Hev; cbn in Hev; discriminate).
  - apply Qnot_lt_le. intro Hpos. nra.
  - apply Qnot_lt_le. intro Hpos. nra.
Qed.

(** Of two angles at most one is below the other. *)
Lemma angle_ltb_asym (a b : P) : angle_ltb a b = true -> angle_ltb b a = false.
Proof.
  intro Hab. apply angle_ltb_false.
  unfold angle_ltb in Hab. apply orb_true_iff in Hab.
  destruct Hab as [Hlt|Heq].
  - apply Nat.ltb_lt in Hlt. split; [lia|]. intros; lia.
  - apply andb_true_iff in Heq. destruct Heq as [Heq Hc].
    apply andb_true_iff in Heq. destruct Heq as [Heq _].
    apply Nat.eqb_eq in Heq. apply Qltb_true in Hc.
    split; [lia|]. intros _ _.
    assert (E : cross b a == - cross a b) by (unfold cross; ring).
    rewrite E. lra.
Qed.

(** ** The sort sorts *)

Section InsertionSort.

Context {A : Type}.
Variable ltb : A -> A -> bool.

Hypothesis ltb_asym : forall x y, ltb x y = true -> ltb y x = false.
Hypothesis geb_trans :
  forall x y z, ltb y x = false -> ltb z y = false -> ltb z x = false.

Lemma insert_by_sorted (x : A) (l : list A) :
  StronglySorted (fun u v => ltb v u = false) l ->
  StronglySorted (fun u v => ltb v u = false) (insert_by ltb x l).
Proof.
  induction l as [|y l IH]; intro Hs; cbn [insert_by].
  - constructor; constructor.
  - apply StronglySorted_inv in Hs. destruct Hs as [Hs Hy].
    destruct (ltb y x) eqn:E.
    + constructor; [now apply IH|].
      rewrite insert_by_perm.
      constructor; [apply ltb_asym, E|exact Hy].
    + constructor; [now constructor|].
      constructor; [exact E|].
      rewrite Forall_forall in *. intros z Hz.
      apply (geb_trans x y z); [exact E|now apply Hy].
Qed.

Lemma sort_by_sorted (l : list A) :
  StronglySorted (fun u v => ltb v u = false) (sort_by ltb l).
Proof.
  induction l as [|x l IH]; cbn [sort_by]; [constructor|].
  now apply insert_by_sorted.
Qed.

End InsertionSort.

(** The same when [ltb] is a strict weak order on the entries of the
    list only. *)
Section InsertionSortOn.

Context {A : Type}.
Variable ltb : A -> A -> bool.
Variable among : A -> Prop.

Hypothesis ltb_asym_on :
  forall x y, among x -> among y -> ltb x y = true -> ltb y x = false.
Hypothesis geb_trans_on :
  forall x y z, among x -> among y -> among z ->
                ltb y x = false -> ltb z y = false -> ltb z x = false.

Lemma insert_by_sorted_on (x : A) (l : list A) :
  among x -> Forall among l ->
  StronglySorted (fun u v => ltb v u = false) l ->
  StronglySorted (fun u v => ltb v u = false) (insert_by ltb x l).
Proof.
  intro Hx. induction l as [|y l IH]; intros Hl Hs; cbn [insert_by].
  - constructor; constructor.
  - apply StronglySorted_inv in Hs. destruct Hs as [Hs Hy].
    apply Forall_inv_tail in Hl as Hl'. apply Forall_inv in Hl as Hay.
    destruct (ltb y x) eqn:E.
    + constructor; [now apply IH|].
      rewrite insert_by_perm.
      constructor; [now apply ltb_asym_on|exact Hy].
    + constructor; [now constructor|].
      constructor; [exact E|].
      rewrite Forall_forall in *. intros z Hz.
      apply (geb_trans_on x y z); auto.
Qed.

Lemma sort_by_sorted_on (l : list A) :
  Forall among l ->
  StronglySorted (fun u v => ltb v u = false) (sort_by ltb l).
Proof.
  induction l as [|x l IH]; intro Hl; cbn [sort_by]; [constructor|].
  apply Forall_inv_tail in Hl as Hl'. apply Forall_inv in Hl as Hx.
  apply insert_by_sorted_on; [exact Hx| |now apply IH].
  eapply Permutation_Forall; [|exact Hl'].
  symmetry. apply sort_by_perm.
Qed.

End InsertionSortOn.

(** ** The polygon and the list *)

Lemma mapM_nth {A B : Type} (f : A -> comp B) (l : list A) (ys : list B)
    (da : A) (db : B) :
  mapM f l = Done ys ->
  forall i, (i < length l)%nat -> f (nth i l da) = Done (nth i ys db).
Proof.
  revert ys. induction l as [|x l IH]; intros ys; cbn [mapM].
  - intros _ i Hi. cbn in Hi. lia.
  - destruct (f x) as [y| |] eqn:Ex; cbn [bind]; try discriminate.
    destruct (mapM f l) as [ys'| |]; cbn [bind]; try discriminate.
    intros E i Hi. injection E as <-.
    destruct i as [|i]; [exact Ex|].
    cbn [nth]. apply IH; [reflexivity|]. cbn [length] in Hi. lia.
Qed.

(** ** The call with any sort key *)

Section KeyedCall.

Context {LM : Lmethods}.
Variable K : Type.
Variable angle : P -> K.
Variable key_ltb : K -> K -> bool.

Local Abbreviation call := (halfplane_intersect_keyed K angle key_ltb).

(** [<] on the keys is a strict weak order. *)
Hypothesis key_asym : forall x y, key_ltb x y = true -> key_ltb y x = false.
Hypothesis key_trans :
  forall x y z, key_ltb y x = false -> key_ltb z y = false ->
                key_ltb z x = false.

Lemma keyed_call_eq (st : store) (H : list loc) :
  call st H =
  let st1 := fst (add_bounding st H) in
  let H2 := sort_by_key K angle key_ltb st1 (snd (add_bounding st H)) in
  mkOutcome st1 H2 (polygon (S (length H + 4)) st1 H2).
Proof.
  unfold halfplane_intersect_keyed, halfplane_intersect_keyed_fuel.
  now destruct (add_bounding st H).
Qed.

Lemma keyed_list_perm (st : store) (H : list loc) :
  Permutation (out_list (call st H))
              (H ++ [next st; next st; next st; next st]).
Proof.
  rewrite keyed_call_eq. cbv zeta. cbn [out_list].
  rewrite <- add_bounding_list. apply sort_by_perm.
Qed.

Lemma keyed_list_sorted (st : store) (H : list loc) :
  StronglySorted (key_le_at K angle key_ltb (out_store (call st H)))
                 (out_list (call st H)).
Proof.
  rewrite keyed_call_eq. cbv zeta. cbn [out_store out_list].
  unfold sort_by_key, key_le_at.
  apply (sort_by_sorted
           (fun a b => key_ltb (angle (d (objs (fst (add_bounding st H)) a)))
                               (angle (d (objs (fst (add_bounding st H)) b))))).
  - intros x y. apply key_asym.
  - intros x y z. apply key_trans.
Qed.

(** What a call returns when it returns: the deque the vertices were
    read off. *)
Lemma keyed_returned_polygon (st : store) (H : list loc) (ps : list P) :
  out_result (call st H) = Done ps ->
  ps = [] \/
  exists q0 q,
    sweep (S (length H + 4)) (out_store (call st H)) (out_list (call st H)) []
    = Done (Some q0) /\
    trim (S (length H + 4)) (out_store (call st H)) q0 = Done q /\
    (3 <= length q)%nat /\
    vertices (out_store (call st H)) q = Done ps.
Proof.
  rewrite keyed_call_eq. cbv zeta.
  cbn [out_result out_store out_list]. unfold polygon.
  destruct (sweep _ _ _ []) as [[q0|]| |] eqn:Es; cbn [bind];
    try discriminate.
  - destruct (trim _ _ q0) as [q| |] eqn:Et; cbn [bind]; try discriminate.
    destruct (Nat.ltb_spec (length q) 3) as [Hl|Hl].
    + intro E. injection E as <-. now left.
    + intro E. right. exists q0, q.
      split; [reflexivity|]. split; [exact Et|]. split; [exact Hl|exact E].
  - intro E. injection E as <-. now left.
Qed.

(** X2: whatever the sort key is, as long as [<] on the keys is a strict
    weak order: when the call is over, the caller's list is in
    non-decreasing order of the keys of the directions, as the lines are
    in the store then. *)
Theorem caller_list_sorted (st : store) (H : list loc) :
  let out := call st H in
  StronglySorted (key_le_at K angle key_ltb (out_store out)) (out_list out).
Proof.
  cbv zeta. apply keyed_list_sorted.
Qed.

(** X3: whatever the sort key is, as long as [<] on the keys is a strict
    weak order: a polygon that is returned and is not empty is read off a
    sub-sequence [q] of the caller's list as the call leaves it.  The
    lines of [q] are lines the caller supplied or the bounding line, they
    come in non-decreasing order of their keys, and vertex [i] is the
    intersection of line [i] with the next one, the last with the
    first. *)
Theorem polygon_follows_the_list (st : store) (H : list loc) (ps : list P) :
  out_result (call st H) = Done ps -> ps <> [] ->
  let out := call st H in
  exists q,
    subseq q (out_list out) /\
    Forall (fun r => In r H \/ r = next st) q /\
    StronglySorted (key_le_at K angle key_ltb (out_store out)) q /\
    length ps = length q /\
    forall i, (i < length q)%nat ->
      intersection (objs (out_store out) (nth i q 0%nat))
                   (objs (out_store out) (nth ((i + 1) mod length q) q 0%nat))
      = Some (nth i ps (mkP 0 0)).
Proof.
  intros E Hne. cbv zeta.
  destruct (keyed_returned_polygon st H ps E)
    as [->|(q0 & q & Es & Et & Hl & Ev)]; [congruence|].
  exists q.
  assert (Hsub : subseq q (out_list (call st H))).
  { apply (subseq_trans _ q0); [now apply trim_subseq in Et|].
    now apply (sweep_subseq _ _ _ [] [] q0 (subseq_nil_l _)) in Es. }
  split; [exact Hsub|]. split; [|split; [|split]].
  - apply Forall_forall. intros r Hr.
    apply (subseq_In _ _ r Hsub) in Hr.
    apply (Permutation_in _ (keyed_list_perm st H)) in Hr.
    apply in_app_or in Hr.
    destruct Hr as [Hr|Hr]; [now left|right].
    cbn in Hr. intuition congruence.
  - apply (subseq_StronglySorted _ _ _ Hsub).
    apply keyed_list_sorted.
  - apply mapM_length in Ev. now rewrite length_seq in Ev.
  - intros i Hi. unfold vertices in Ev.
    pose proof (mapM_nth _ _ _ 0%nat (mkP 0 0) Ev i) as Hn.
    rewrite length_seq in Hn. specialize (Hn Hi).
    rewrite seq_nth in Hn by exact Hi. cbn [Nat.add] in Hn.
    unfold inter in Hn.
    destruct (intersection _ _) as [p|]; [|discriminate].
    injection Hn as ->. reflexivity.
Qed.

End KeyedCall.

(** The call of the sections above is the call with the exact angle as
    its key. *)
Lemma exact_angle_call {LM : Lmethods} (st : store) (H : list loc) :
  halfplane_intersect st H
  = halfplane_intersect_keyed P (fun v => v) angle_ltb st H.
Proof. reflexivity. Qed.

(** A key that ties more than the exact angle does: the piece [arc] of
    the range of [atan2] alone. *)
Lemma caller_list_sorted_witness :
  (forall x y, (x <? y)%nat = true -> (y <? x)%nat = false) /\
  StronglySorted
    (key_le_at nat arc Nat.ltb
       (out_store (@halfplane_intersect_keyed (SpecL eps9) nat arc Nat.ltb
                     (store_of triangle) (refs_of triangle))))
    (out_list (@halfplane_intersect_keyed (SpecL eps9) nat arc Nat.ltb
                 (store_of triangle) (refs_of triangle))).
Proof.
  assert (Ha : forall x y, (x <? y)%nat = true -> (y <? x)%nat = false).
  { intros x y Hxy. apply Nat.ltb_lt in Hxy. apply Nat.ltb_ge. lia. }
  split; [exact Ha|].
  refine (@caller_list_sorted (SpecL eps9) nat arc Nat.ltb Ha _
            (store_of triangle) (refs_of triangle)).
  intros x y z Hxy Hyz. apply Nat.ltb_ge in Hxy, Hyz. apply Nat.ltb_ge. lia.
Defined.

Lemma polygon_follows_the_list_witness :
  exists ps q,
    out_result (@halfplane_intersect_keyed (SpecL eps9) P (fun v => v)
                  angle_ltb (store_of corner) (refs_of corner)) = Done ps /\
    ps <> [] /\
    subseq q (out_list (@halfplane_intersect_keyed (SpecL eps9) P (fun v => v)
                          angle_ltb (store_of corner) (refs_of corner))) /\
    length ps = length q.
Proof.
  assert (E : exists ps,
             out_result (@halfplane_intersect_keyed (SpecL eps9) P (fun v => v)
                           angle_ltb (store_of corner) (refs_of corner))
             = Done ps /\ ps <> []).
  { eexists. split; [vm_compute; reflexivity|discriminate]. }
  destruct E as (ps & E & Hne).
  destruct (@polygon_follows_the_list (SpecL eps9) P (fun v => v) angle_ltb
              angle_ltb_asym (fun x y z => angle_le_trans x y z)
              (store_of corner) (refs_of corner) ps E Hne)
    as (q & Hsub & _ & _ & Hlen & _).
  exists ps, q. repeat split; assumption.
Defined.

(** ** The call on one halfplane *)

Lemma sort_four_aliases (st : store) (bb : loc) :
  objs st bb = mkL (mkP (- INF) (- INF)) (mkP INF 0) ->
  sort_by_angle st [bb; bb; bb; bb] = [bb; bb; bb; bb].
Proof.
  intro Hb.
  assert (Ea : angle_ltb (d (objs st bb)) (d (objs st bb)) = false)
    by (rewrite Hb; vm_compute; reflexivity).
  unfold sort_by_angle. cbn [sort_by insert_by].
  repeat (rewrite Ea; cbn [insert_by]). reflexivity.
Qed.

Lemma sort_one_and_four_aliases (st : store) (h bb : loc) :
  objs st bb = mkL (mkP (- INF) (- INF)) (mkP INF 0) ->
  sort_by_angle st [h; bb; bb; bb; bb] = [h; bb; bb; bb; bb] \/
  sort_by_angle st [h; bb; bb; bb; bb] = [bb; bb; bb; bb; h].
Proof.
  intro Hb. pose proof (sort_four_aliases st bb Hb) as E4.
  unfold sort_by_angle in *. cbn [sort_by] in *. rewrite E4.
  cbn [insert_by].
  destruct (angle_ltb (d (objs st bb)) (d (objs st h))); [right|left];
    reflexivity.
Qed.

(** A deque of fewer than three lines gives the empty polygon. *)
Lemma short_deque_gives_empty {LM : Lmethods} (st : store) (fuel : nat)
    (q : list loc) :
  (length q < 3)%nat ->
  (q' <- trim (S fuel) st q ;;
   if (length q' <? 3)%nat then Done [] else vertices st q') = Done [].
Proof.
  intro Hq. unfold trim. cbn [while]. unfold trim_back_test, trim_front_test.
  destruct (Nat.leb_spec 3 (length q)) as [Hl|_]; [lia|].
  cbn [bind].
  destruct (Nat.leb_spec 3 (length q)) as [Hl|_]; [lia|].
  cbn [bind].
  destruct (Nat.ltb_spec (length q) 3) as [_|Hl]; [reflexivity|lia].
Qed.

Section OneLine.

Context {LM : Lmethods}.
Variable st : store.
Variables h bb : loc.

Hypothesis bb_seed : objs st bb = mkL (mkP (- INF) (- INF)) (mkP INF 0).
Hypothesis parallel_itself : parallel (objs st bb) (objs st bb) = true.
Hypothesis side_of_origin :
  Qltb 0 (side (objs st bb) (o (objs st bb))) = false.
Hypothesis meets_behind :
  parallel (objs st bb) (objs st h) = false ->
  exists p, intersection (objs st bb) (objs st h) = Some p /\
            Qltb 0 (side (objs st bb) p) = false.
Hypothesis meets_ahead :
  parallel (objs st bb) (objs st h) = false ->
  exists p, intersection (objs st h) (objs st bb) = Some p /\
            Qltb 0 (side (objs st bb) p) = false.

Lemma place_bb_on_bb (q : list loc) :
  place st bb (q ++ [bb]) = Next (q ++ [bb]).
Proof.
  unfold place. destruct (q ++ [bb]) as [|x q0] eqn:Eq;
    [now destruct q|].
  rewrite <- Eq. unfold back. rewrite last_last.
  rewrite parallel_itself, side_of_origin. rewrite bb_seed.
  replace (Qltb (dot _ _) 0) with false by (vm_compute; reflexivity).
  reflexivity.
Qed.

Lemma place_bb_on_one : place st bb [bb] = Next [bb].
Proof. exact (place_bb_on_bb []). Qed.

Lemma place_bb_on_two : place st bb [h; bb] = Next [h; bb].
Proof. exact (place_bb_on_bb [h]). Qed.

(** The three deques the bounding line leaves as they are. *)
Local Abbreviation settled q :=
  (q = [bb] \/ q = [h; bb] \/ (q = [h] /\ place st bb [h] = Next [h])).

Lemma settled_step (fuel : nat) (q : list loc) :
  (q = [h; bb] -> parallel (objs st bb) (objs st h) = false) ->
  settled q -> sweep_step (S (S fuel)) st bb q = Done (Next q).
Proof.
  intros Hpar [->|[->|(-> & Hp)]]; unfold sweep_step.
  - cbn [while back_test front_test length Nat.leb bind].
    now rewrite place_bb_on_one.
  - destruct (meets_behind (Hpar eq_refl)) as (p & Ep & Sp).
    destruct (meets_ahead (Hpar eq_refl)) as (p' & Ep' & Sp').
    assert (Eb : while (S (S fuel)) (back_test st bb) pop [h; bb]
                 = Done [h; bb]).
    { cbn [while]. unfold back_test, inter.
      cbn [length Nat.leb back back2 last removelast].
      rewrite Ep. cbn [bind]. now rewrite Sp. }
    assert (Ef : while (S (S fuel)) (front_test st bb) pop0 [h; bb]
                 = Done [h; bb]).
    { cbn [while]. unfold front_test, inter.
      cbn [length Nat.leb front front2 hd tl].
      rewrite Ep'. cbn [bind]. now rewrite Sp'. }
    rewrite Eb. cbn [bind]. rewrite Ef. cbn [bind].
    now rewrite place_bb_on_two.
  - cbn [while back_test front_test length Nat.leb bind]. now rewrite Hp.
Qed.

Lemma settled_sweep (fuel : nat) (q : list loc) (n : nat) :
  (q = [h; bb] -> parallel (objs st bb) (objs st h) = false) ->
  settled q -> sweep (S (S fuel)) st (repeat bb n) q = Done (Some q).
Proof.
  intros Hpar Hs. induction n as [|n IH]; cbn [repeat sweep]; [reflexivity|].
  rewrite settled_step by assumption. cbn [bind]. exact IH.
Qed.

Lemma settled_short (q : list loc) : settled q -> (length q < 3)%nat.
Proof. intros [->|[->|(-> & _)]]; cbn; lia. Qed.

Lemma sweep_cons (fuel : nat) (x : loc) (H q : list loc) :
  sweep fuel st (x :: H) q =
  (f <- sweep_step fuel st x q ;;
   match f with
   | Next q' => sweep fuel st H q'
   | ReturnEmpty => Done None
   end).
Proof. reflexivity. Qed.

Lemma polygon_line_first (fuel : nat) :
  polygon (S (S fuel)) st [h; bb; bb; bb; bb] = Done [].
Proof.
  unfold polygon. rewrite sweep_cons.
  assert (E0 : sweep_step (S (S fuel)) st h [] = Done (Next [h]))
    by reflexivity.
  rewrite E0. cbn [bind]. rewrite sweep_cons.
  assert (E1 : sweep_step (S (S fuel)) st bb [h] = Done (place st bb [h]))
    by reflexivity.
  rewrite E1. cbn [bind].
  destruct (place st bb [h]) as [q|] eqn:Ep; [|reflexivity].
  assert (Hq : settled q /\
               (q = [h; bb] -> parallel (objs st bb) (objs st h) = false)).
  { revert Ep. unfold place. cbn [back last app pop removelast].
    destruct (parallel (objs st bb) (objs st h)) eqn:Epar.
    - destruct (Qltb (dot _ _) 0) eqn:Ed; [discriminate|].
      destruct (Qltb 0 (side (objs st bb) (o (objs st h)))) eqn:Es;
        intro E; injection E as <-.
      + split; [now left|discriminate].
      + split; [|discriminate]. right; right. now split.
    - intro E. injection E as <-. split; [right; now left|reflexivity]. }
  destruct Hq as (Hs & Hpar).
  change [bb; bb; bb] with (repeat bb 3).
  rewrite (settled_sweep fuel q 3 Hpar Hs). cbn [bind].
  apply short_deque_gives_empty. now apply settled_short.
Qed.

Lemma polygon_line_last (fuel : nat) :
  polygon (S (S fuel)) st [bb; bb; bb; bb; h] = Done [].
Proof.
  unfold polygon. rewrite sweep_cons.
  assert (E0 : sweep_step (S (S fuel)) st bb [] = Done (Next [bb]))
    by reflexivity.
  rewrite E0. cbn [bind].
  assert (Hs : settled [bb]) by now left.
  assert (Hpar : [bb] = [h; bb] -> parallel (objs st bb) (objs st h) = false)
    by discriminate.
  do 3 (rewrite sweep_cons, (settled_step fuel [bb] Hpar Hs); cbn [bind]).
  rewrite sweep_cons.
  assert (E1 : sweep_step (S (S fuel)) st h [bb] = Done (place st h [bb]))
    by reflexivity.
  rewrite E1. cbn [bind]. cbn [sweep].
  destruct (place st h [bb]) as [q|] eqn:Ep; [|reflexivity].
  apply short_deque_gives_empty.
  apply place_length in Ep. cbn [length] in Ep. lia.
Qed.

End OneLine.

Lemma spec_parallel_sym (eps : Q) (l m : L) :
  spec_parallel eps l m = spec_parallel eps m l.
Proof.
  unfold spec_parallel.
  assert (E : Qabs (cross (d l) (d m)) == Qabs (cross (d m) (d l))).
  { rewrite <- Qabs_opp. apply Qabs_wd. unfold cross. ring. }
  now rewrite E.
Qed.

Lemma not_parallel_cross (eps : Q) (l m : L) :
  0 <= eps -> spec_parallel eps l m = false -> ~ cross (d l) (d m) == 0.
Proof.
  intros Heps Hp E. unfold spec_parallel in Hp.
  assert (Ht : Qle_bool (Qabs (cross (d l) (d m))) eps = true).
  { apply Qle_bool_iff. rewrite E. exact Heps. }
  congruence.
Qed.

(** The call on a list of one halfplane, for the methods of the spec
    with any [side] that is not positive on the line itself. *)
Lemma one_halfplane_any_side (s : L -> P -> Q) (eps : Q) (st : store)
    (h : loc) :
  0 <= eps ->
  (forall l p, spec_side l p == 0 -> Qltb 0 (s l p) = false) ->
  out_result (@halfplane_intersect (with_side s (SpecL eps)) st [h]) = Done [].
Proof.
  intros Heps Hs. unfold halfplane_intersect.
  rewrite halfplane_intersect_fuel_eq. cbv zeta. cbn [out_result length Nat.add].
  rewrite add_bounding_list. cbn [app].
  set (st1 := fst (add_bounding st [h])).
  assert (Hb : objs st1 (next st) = mkL (mkP (- INF) (- INF)) (mkP INF 0))
    by apply add_bounding_object.
  assert (Hpar : @parallel (with_side s (SpecL eps))
                   (objs st1 (next st)) (objs st1 (next st)) = true).
  { rewrite Hb. now apply seed_parallel_itself. }
  assert (Hso : Qltb 0 (@side (with_side s (SpecL eps)) (objs st1 (next st))
                          (o (objs st1 (next st)))) = false).
  { apply Hs. rewrite Hb. vm_compute. reflexivity. }
  assert (Hmb : @parallel (with_side s (SpecL eps))
                  (objs st1 (next st)) (objs st1 h) = false ->
                exists p,
                  @intersection (with_side s (SpecL eps))
                    (objs st1 (next st)) (objs st1 h) = Some p /\
                  Qltb 0 (@side (with_side s (SpecL eps))
                            (objs st1 (next st)) p) = false).
  { cbn [parallel intersection side with_side SpecL]. intro Hp.
    exists (inter_point (objs st1 (next st)) (objs st1 h)).
    unfold spec_intersection. rewrite Hp. split; [reflexivity|].
    apply Hs, inter_point_on_self. now apply (not_parallel_cross eps). }
  assert (Hma : @parallel (with_side s (SpecL eps))
                  (objs st1 (next st)) (objs st1 h) = false ->
                exists p,
                  @intersection (with_side s (SpecL eps))
                    (objs st1 h) (objs st1 (next st)) = Some p /\
                  Qltb 0 (@side (with_side s (SpecL eps))
                            (objs st1 (next st)) p) = false).
  { cbn [parallel intersection side with_side SpecL]. intro Hp.
    rewrite spec_parallel_sym in Hp.
    exists (inter_point (objs st1 h) (objs st1 (next st))).
    unfold spec_intersection. rewrite Hp. split; [reflexivity|].
    apply Hs, inter_point_on_other. now apply (not_parallel_cross eps). }
  destruct (sort_one_and_four_aliases st1 h (next st) Hb) as [E|E];
    rewrite E.
  - now apply polygon_line_first.
  - now apply polygon_line_last.
Qed.

(** X4: with the methods of the spec and any tolerance [eps >= 0], the
    call on a list of one halfplane returns the empty polygon, whatever
    the halfplane is: the working list holds that line and four times the
    one bounding line, and no more than two lines ever stay in the
    deque.  The same holds when [side] is positive on the right. *)
Theorem one_halfplane_gives_empty_polygon (eps : Q) (st : store) (h : loc) :
  0 <= eps ->
  out_result (@halfplane_intersect (SpecL eps) st [h]) = Done [] /\
  out_result (@halfplane_intersect (RightL eps) st [h]) = Done [].
Proof.
  intro Heps. split.
  - apply (one_halfplane_any_side spec_side eps st h Heps).
    intros l p E. apply Qltb_false. rewrite E. apply Qle_refl.
  - apply (one_halfplane_any_side (fun l p => - spec_side l p) eps st h Heps).
    intros l p E. apply Qltb_false. rewrite E. discriminate.
Qed.

Lemma one_halfplane_gives_empty_polygon_witness :
  0 <= eps9 /\
  out_result (@run (SpecL eps9) [line 0 0 1 0]) = Done [].
Proof.
  assert (Heps : 0 <= eps9) by discriminate.
  split; [exact Heps|].
  exact (proj1 (one_halfplane_gives_empty_polygon eps9
                  (store_of [line 0 0 1 0]) 0%nat Heps)).
Defined.

Lemma exact_parallel_call_witness :
  Forall (fun r => nonzero (d (objs (store_of opposite_pair) r)))
         (refs_of opposite_pair) /\
  ((exists ps, out_result (@run (with_side spec_side (SpecL 0)) opposite_pair)
               = Done ps) \/
   out_result (@run (with_side spec_side (SpecL 0)) opposite_pair)
   = Raise DegenerateGeometry).
Proof.
  assert (Hnz : Forall (fun r => nonzero (d (objs (store_of opposite_pair) r)))
                       (refs_of opposite_pair)).
  { repeat constructor; intros [_ Hy]; vm_compute in Hy; discriminate. }
  split; [exact Hnz|].
  destruct (exact_parallel_call spec_side (store_of opposite_pair)
              (refs_of opposite_pair) Hnz)
    as [Hd|(q0 & q & _ & _ & _ & _ & Hr)]; [now left|now right].
Defined.

(** * The Merkle root *)

Lemma string_append_assoc (a b c : String.string) :
  String.append (String.append a b) c = String.append a (String.append b c).
Proof.
  induction a as [|ch a IH]; cbn [String.append]; [reflexivity|].
  now rewrite IH.
Qed.

(** Induction on a list, two entries at a time. *)
Lemma list_pair_ind {A : Type} (Q : list A -> Prop) :
  Q [] -> (forall a, Q [a]) -> (forall a b l, Q l -> Q (a :: b :: l)) ->
  forall l, Q l.
Proof.
  intros H0 H1 H2.
  assert (Hboth : forall l, Q l /\ forall a, Q (a :: l)).
  { induction l as [|x l [IH1 IH2]]; [split; [exact H0|exact H1]|].
    split; [apply IH2|]. intro a. now apply H2. }
  intro l. apply Hboth.
Qed.

Section MerkleFacts.

Import Merkle.

Variable sha256_hex : str -> str.

Local Abbreviation hash_pairs := (Merkle.hash_pairs sha256_hex).
Local Abbreviation reduce_levels := (Merkle.reduce_levels sha256_hex).
Local Abbreviation root_fuel := (Merkle.compute_merkle_root_fuel sha256_hex).
Local Abbreviation root := (Merkle.compute_merkle_root sha256_hex).

Lemma mod2_cases (n : nat) : (n mod 2 = 0 \/ n mod 2 = 1)%nat.
Proof. pose proof (Nat.mod_upper_bound n 2). lia. Qed.

Lemma mod2_SS (n : nat) : (S (S n) mod 2 = n mod 2)%nat.
Proof.
  replace (S (S n)) with (n + 1 * 2)%nat by lia.
  apply Nat.Div0.mod_add.
Qed.

(** On a level of even length the loop over the pairs returns, one
    digest for each pair. *)
Lemma hash_pairs_even (level : list str) :
  (length level mod 2 = 0)%nat ->
  exists new_level,
    hash_pairs level = Returns new_level /\
    (2 * length new_level = length level)%nat /\
    Forall (fun x => exists s, x = sha256_hex s) new_level.
Proof.
  induction level as [| a | a b l IH] using list_pair_ind; intro Hev.
  - exists []. repeat split. constructor.
  - cbn in Hev. discriminate.
  - cbn [length] in Hev. rewrite mod2_SS in Hev.
    destruct (IH Hev) as (nl & E & Hl & Hd).
    exists (sha256_hex (String.append a b) :: nl).
    cbn [Merkle.hash_pairs]. rewrite E. cbn [length].
    split; [reflexivity|]. split; [lia|]. constructor; [eauto|exact Hd].
Qed.

Lemma hash_pairs_odd (level : list str) :
  (length level mod 2 = 1)%nat -> hash_pairs level = IndexError.
Proof.
  induction level as [| a | a b l IH] using list_pair_ind; intro Hod.
  - cbn in Hod. discriminate.
  - reflexivity.
  - cbn [length] in Hod. rewrite mod2_SS in Hod.
    cbn [Merkle.hash_pairs]. now rewrite (IH Hod).
Qed.

Lemma pad_level_length (level : list str) :
  (length (pad_level level) mod 2 = 0)%nat /\
  (length (pad_level level) = length level + length level mod 2)%nat.
Proof.
  unfold pad_level. destruct (Nat.eqb_spec (length level mod 2) 0) as [E|E].
  - split; [exact E|lia].
  - destruct (mod2_cases (length level)) as [E'|E']; [contradiction|].
    rewrite length_app. cbn [length]. split; [|lia].
    rewrite Nat.Div0.add_mod, E'. reflexivity.
Qed.

(** One round of the loop of line 9. *)
Lemma next_level (level : list str) :
  exists new_level,
    hash_pairs (pad_level level) = Returns new_level /\
    (2 * length new_level = length level + length level mod 2)%nat /\
    Forall (fun x => exists s, x = sha256_hex s) new_level.
Proof.
  destruct (pad_level_length level) as (Hev & Hl).
  destruct (hash_pairs_even (pad_level level) Hev) as (nl & E & Hn & Hd).
  exists nl. split; [exact E|]. split; [lia|exact Hd].
Qed.

(** The loop ends, on the empty level or on a level of one entry, which
    is a digest as soon as one round has run. *)
Lemma reduce_levels_runs (fuel : nat) : forall level,
  (length level < fuel)%nat ->
  exists last_level,
    reduce_levels fuel level = Returns last_level /\
    ((level = [] /\ last_level = []) \/
     (exists x, last_level = [x] /\
                ((1 < length level)%nat -> exists s, x = sha256_hex s) /\
                (length level = 1%nat -> level = [x]))).
Proof.
  induction fuel as [|f IH]; intros level Hf; [lia|].
  cbn [Merkle.reduce_levels].
  destruct (Nat.ltb_spec 1 (length level)) as [Hl|Hl].
  - destruct (next_level level) as (nl & E & Hn & Hd). rewrite E.
    pose proof (mod2_cases (length level)) as Hm.
    destruct (IH nl) as (ll & Er & Hll); [lia|].
    exists ll. split; [exact Er|]. right.
    destruct Hll as [(-> & _)|(x & -> & Hx & H1)]; [cbn in Hn; lia|].
    exists x. split; [reflexivity|]. split; [|lia]. intros _.
    destruct (Nat.eq_dec (length nl) 1) as [E1|E1].
    + rewrite (H1 E1) in Hd. now inversion Hd.
    + apply Hx. lia.
  - exists level. split; [reflexivity|].
    destruct level as [|x [|y l]]; [now left| |cbn in Hl; lia].
    right. exists x. split; [reflexivity|]. split; [cbn; lia|reflexivity].
Qed.

Lemma reduce_levels_fuel (fuel fuel' : nat) : forall level,
  (length level < fuel)%nat -> (length level < fuel')%nat ->
  reduce_levels fuel level = reduce_levels fuel' level.
Proof.
  revert fuel'. induction fuel as [|f IH]; intros fuel' level Hf Hf'; [lia|].
  destruct fuel' as [|f']; [lia|]. cbn [Merkle.reduce_levels].
  destruct (Nat.ltb_spec 1 (length level)) as [Hl|Hl]; [|reflexivity].
  destruct (next_level level) as (nl & E & Hn & _). rewrite E.
  pose proof (mod2_cases (length level)). apply IH; lia.
Qed.

Lemma returned_root_is_digest (transactions : list str) (r : str) :
  root transactions = Returns r -> exists s, r = sha256_hex s.
Proof.
  unfold Merkle.compute_merkle_root, Merkle.compute_merkle_root_fuel.
  destruct (Nat.eqb_spec (length transactions) 1) as [E1|E1].
  - intro E. injection E as <-. eauto.
  - destruct (reduce_levels_runs (S (length transactions)) transactions)
      as (ll & E & [(-> & ->)|(x & -> & Hx & _)]); [lia| |]; rewrite E.
    + discriminate.
    + intro Er. injection Er as <-. apply Hx.
      destruct transactions as [|a [|b l]]; cbn [length] in *;
        [discriminate E|lia|lia].
Qed.

(** X7: whatever a call returns is a digest: [sha256_hex] of some
    string, never one of the transactions as it stands. *)
Theorem merkle_root_is_digest (transactions : list str) (r : str) :
  root transactions = Returns r -> exists s, r = sha256_hex s.
Proof.
  exact (returned_root_is_digest transactions r).
Qed.

(** X8: a list of odd length (and more than one entry) has the root of
    the list with its last entry repeated: the loop pads the level
    itself (lines 10-11). *)
Theorem merkle_root_odd_padding (transactions : list str) :
  (length transactions mod 2 = 1)%nat -> (1 < length transactions)%nat ->
  root (transactions ++ [last transactions String.EmptyString])
  = root transactions.
Proof.
  intros Hod Hl.
  unfold Merkle.compute_merkle_root, Merkle.compute_merkle_root_fuel.
  rewrite length_app. cbn [length].
  destruct (Nat.eqb_spec (length transactions + 1) 1) as [E|_]; [lia|].
  destruct (Nat.eqb_spec (length transactions) 1) as [E|_]; [lia|].
  assert (Er : reduce_levels (S (length transactions + 1))
                 (transactions ++ [last transactions String.EmptyString])
               = reduce_levels (S (length transactions)) transactions).
  { cbn [Merkle.reduce_levels]. rewrite length_app. cbn [length].
    destruct (Nat.ltb_spec 1 (length transactions + 1)) as [_|H1]; [|lia].
    destruct (Nat.ltb_spec 1 (length transactions)) as [_|H1]; [|lia].
    assert (Ep : pad_level (transactions ++ [last transactions String.EmptyString])
                 = pad_level transactions).
    { unfold pad_level. rewrite length_app. cbn [length].
      rewrite Nat.Div0.add_mod, Hod. reflexivity. }
    rewrite Ep. destruct (next_level transactions) as (nl & E & Hn & _).
    rewrite E. apply reduce_levels_fuel; lia. }
  now rewrite Er.
Qed.

(** The loop over the pairs sees the concatenation of a pair only. *)
Lemma hash_pairs_boundary (l1 l2 : list str) (a b c : str) :
  (length l1 mod 2 = 0)%nat ->
  hash_pairs (l1 ++ [String.append a b; c] ++ l2)
  = hash_pairs (l1 ++ [a; String.append b c] ++ l2).
Proof.
  induction l1 as [| x | x y l IH] using list_pair_ind; intro Hev.
  - cbn [app Merkle.hash_pairs]. now rewrite string_append_assoc.
  - cbn in Hev. discriminate.
  - cbn [length] in Hev. rewrite mod2_SS in Hev.
    cbn [app Merkle.hash_pairs]. cbn [app] in IH. now rewrite (IH Hev).
Qed.

Lemma last_past (l1 l2 : list str) (x y z : str) :
  l2 <> [] -> last (l1 ++ [x; y] ++ l2) z = last l2 z.
Proof.
  intro Hne. rewrite app_assoc. destruct l2 as [|u l2]; [congruence|].
  induction (l1 ++ [x; y]) as [|w l IH]; [reflexivity|].
  cbn [app last]. destruct (l ++ u :: l2) eqn:E; [|exact IH].
  destruct l; discriminate.
Qed.

(** X9: the two entries of a pair are concatenated with nothing between
    them, so moving text across the boundary inside a pair of
    transactions does not change the root. *)
Theorem merkle_root_pair_boundary (l1 l2 : list str) (a b c : str) :
  (length l1 mod 2 = 0)%nat ->
  root (l1 ++ [String.append a b; c] ++ l2)
  = root (l1 ++ [a; String.append b c] ++ l2).
Proof.
  intro Hev.
  unfold Merkle.compute_merkle_root, Merkle.compute_merkle_root_fuel.
  assert (El : length (l1 ++ [String.append a b; c] ++ l2)
               = length (l1 ++ [a; String.append b c] ++ l2))
    by (rewrite !length_app; reflexivity).
  assert (H2 : (2 <= length (l1 ++ [a; String.append b c] ++ l2))%nat)
    by (rewrite !length_app; cbn [length]; lia).
  rewrite El.
  destruct (Nat.eqb_spec (length (l1 ++ [a; String.append b c] ++ l2)) 1)
    as [E|_]; [lia|].
  cbn [Merkle.reduce_levels]. rewrite El.
  destruct (Nat.ltb_spec 1 (length (l1 ++ [a; String.append b c] ++ l2)))
    as [_|H1]; [|lia].
  assert (Ep : hash_pairs (pad_level (l1 ++ [String.append a b; c] ++ l2))
               = hash_pairs (pad_level (l1 ++ [a; String.append b c] ++ l2))).
  { unfold pad_level. rewrite El.
    destruct (Nat.eqb_spec
                (length (l1 ++ [a; String.append b c] ++ l2) mod 2) 0)
      as [E|E].
    - now apply hash_pairs_boundary.
    - assert (Hne : l2 <> []).
      { intros ->. apply E. rewrite length_app. cbn [app length].
        rewrite Nat.Div0.add_mod, Hev. reflexivity. }
      rewrite !last_past by exact Hne.
      rewrite <- !app_assoc. cbn [app].
      exact (hash_pairs_boundary l1 (l2 ++ [last l2 String.EmptyString])
               a b c Hev). }
  now rewrite Ep.
Qed.

(** X10: a list of two transactions has the root of the list of one
    transaction that is their concatenation. *)
Theorem merkle_root_two_as_one (a b : str) :
  root [a; b] = root [String.append a b].
Proof. reflexivity. Qed.

(** The loop on two levels of the same even length, side by side. *)
Lemma hash_pairs_app (l1 l2 n1 n2 : list str) :
  hash_pairs l1 = Returns n1 -> hash_pairs l2 = Returns n2 ->
  hash_pairs (l1 ++ l2) = Returns (n1 ++ n2).
Proof.
  revert n1. induction l1 as [| x | x y l IH] using list_pair_ind; intros n1.
  - intro E. injection E as <-. intro E2. exact E2.
  - discriminate.
  - cbn [app Merkle.hash_pairs].
    destruct (hash_pairs l) as [nl| |] eqn:El; try discriminate.
    intros E E2. injection E as <-. now rewrite (IH nl eq_refl E2).
Qed.

Lemma reduce_levels_halves (k : nat) : forall (l1 l2 : list str) (x y : str)
    (f1 f2 f : nat),
  length l1 = (2 ^ k)%nat -> length l2 = (2 ^ k)%nat ->
  (length l1 < f1)%nat -> (length l2 < f2)%nat ->
  (length l1 + length l2 < f)%nat ->
  reduce_levels f1 l1 = Returns [x] -> reduce_levels f2 l2 = Returns [y] ->
  reduce_levels f (l1 ++ l2) = Returns [sha256_hex (String.append x y)].
Proof.
  induction k as [|k IH]; intros l1 l2 x y f1 f2 f H1 H2 Hf1 Hf2 Hf E1 E2.
  - cbn in H1, H2.
    destruct l1 as [|a [|? ?]]; try discriminate.
    destruct l2 as [|b [|? ?]]; try discriminate.
    destruct f1 as [|f1]; [lia|]. destruct f2 as [|f2]; [lia|].
    cbn in E1, E2. injection E1 as <-. injection E2 as <-.
    destruct f as [|[|f]]; cbn [length] in Hf; try lia. reflexivity.
  - assert (Hp : (0 < 2 ^ k)%nat) by (apply Nat.neq_0_lt_0, Nat.pow_nonzero; lia).
    cbn [Nat.pow] in H1, H2.
    assert (Hm1 : (length l1 mod 2 = 0)%nat).
    { rewrite H1, Nat.mul_comm. apply Nat.Div0.mod_mul. }
    assert (Hm2 : (length l2 mod 2 = 0)%nat).
    { rewrite H2, Nat.mul_comm. apply Nat.Div0.mod_mul. }
    destruct (hash_pairs_even l1 Hm1) as (n1 & En1 & Hn1 & _).
    destruct (hash_pairs_even l2 Hm2) as (n2 & En2 & Hn2 & _).
    destruct f1 as [|f1]; [lia|]. destruct f2 as [|f2]; [lia|].
    destruct f as [|f]; [lia|].
    cbn [Merkle.reduce_levels] in E1, E2. cbn [Merkle.reduce_levels].
    rewrite length_app.
    destruct (Nat.ltb_spec 1 (length l1)) as [_|C]; [|lia].
    destruct (Nat.ltb_spec 1 (length l2)) as [_|C]; [|lia].
    destruct (Nat.ltb_spec 1 (length l1 + length l2)) as [_|C]; [|lia].
    assert (Hm : ((length l1 + length l2) mod 2 = 0)%nat)
      by (rewrite Nat.Div0.add_mod, Hm1, Hm2; reflexivity).
    unfold pad_level in *. rewrite length_app, Hm. cbn [Nat.eqb].
    rewrite Hm1 in E1. rewrite Hm2 in E2. cbn [Nat.eqb] in E1, E2.
    rewrite En1 in E1. rewrite En2 in E2.
    rewrite (hash_pairs_app l1 l2 n1 n2 En1 En2).
    apply (IH n1 n2 x y f1 f2 f); try lia; assumption.
Qed.

(** X11: for two lists of the same length, a power of two above one, the
    root of the two put end to end is the digest of their two roots put
    end to end. *)
Theorem merkle_root_of_halves (k : nat) (l1 l2 : list str) (r1 r2 : str) :
  (1 <= k)%nat ->
  length l1 = (2 ^ k)%nat -> length l2 = (2 ^ k)%nat ->
  root l1 = Returns r1 -> root l2 = Returns r2 ->
  root (l1 ++ l2) = Returns (sha256_hex (String.append r1 r2)).
Proof.
  intros Hk H1 H2.
  assert (Hp : (2 <= 2 ^ k)%nat).
  { destruct k as [|k]; [lia|]. cbn [Nat.pow].
    assert ((0 < 2 ^ k)%nat) by (apply Nat.neq_0_lt_0, Nat.pow_nonzero; lia).
    lia. }
  unfold Merkle.compute_merkle_root, Merkle.compute_merkle_root_fuel.
  rewrite length_app.
  destruct (Nat.eqb_spec (length l1) 1) as [C|_]; [lia|].
  destruct (Nat.eqb_spec (length l2) 1) as [C|_]; [lia|].
  destruct (Nat.eqb_spec (length l1 + length l2) 1) as [C|_]; [lia|].
  destruct (reduce_levels_runs (S (length l1)) l1) as (ll1 & E1 & Hl1); [lia|].
  destruct (reduce_levels_runs (S (length l2)) l2) as (ll2 & E2 & Hl2); [lia|].
  rewrite E1, E2.
  destruct Hl1 as [(-> & _)|(x & -> & _)]; [cbn in H1; lia|].
  destruct Hl2 as [(-> & _)|(y & -> & _)]; [cbn in H2; lia|].
  intros Er1 Er2. injection Er1 as <-. injection Er2 as <-.
  rewrite (reduce_levels_halves k l1 l2 x y (S (length l1)) (S (length l2))
             (S (length l1 + length l2)) H1 H2); try lia; try assumption.
  reflexivity.
Qed.

End MerkleFacts.

Lemma merkle_root_is_digest_witness :
  exists r s,
    Merkle.compute_merkle_root Merkle.marked ["a"; "b"; "c"]%string
    = Merkle.Returns r /\ r = Merkle.marked s.
Proof.
  assert (E : exists r, Merkle.compute_merkle_root Merkle.marked
                          ["a"; "b"; "c"]%string = Merkle.Returns r)
    by (eexists; vm_compute; reflexivity).
  destruct E as (r & E).
  destruct (merkle_root_is_digest Merkle.marked _ r E) as (s & Hs).
  exists r, s. now split.
Defined.

Lemma merkle_root_odd_padding_witness :
  (length ["a"; "b"; "c"]%string mod 2 = 1)%nat /\
  (1 < length ["a"; "b"; "c"]%string)%nat /\
  Merkle.compute_merkle_root Merkle.marked ["a"; "b"; "c"; "c"]%string
  = Merkle.compute_merkle_root Merkle.marked ["a"; "b"; "c"]%string.
Proof.
  assert (Ho : (length ["a"; "b"; "c"]%string mod 2 = 1)%nat) by reflexivity.
  assert (Hl : (1 < length ["a"; "b"; "c"]%string)%nat) by (cbn; lia).
  split; [exact Ho|]. split; [exact Hl|].
  exact (merkle_root_odd_padding Merkle.marked ["a"; "b"; "c"]%string Ho Hl).
Defined.

Lemma merkle_root_pair_boundary_witness :
  (length (@nil Merkle.str) mod 2 = 0)%nat /\
  Merkle.compute_merkle_root Merkle.marked ["ab"; "c"]%string
  = Merkle.compute_merkle_root Merkle.marked ["a"; "bc"]%string.
Proof.
  assert (He : (length (@nil Merkle.str) mod 2 = 0)%nat) by reflexivity.
  split; [exact He|].
  exact (merkle_root_pair_boundary Merkle.marked [] []
           "a"%string "b"%string "c"%string He).
Defined.

Lemma merkle_root_of_halves_witness :
  (1 <= 1)%nat /\
  Merkle.compute_merkle_root Merkle.marked ["a"; "b"; "c"; "d"]%string
  = Merkle.Returns (Merkle.marked (String.append "<ab>" "<cd>")).
Proof.
  split; [lia|].
  apply (merkle_root_of_halves Merkle.marked 1 ["a"; "b"]%string
           ["c"; "d"]%string "<ab>"%string "<cd>"%string);
    [lia|reflexivity|reflexivity|reflexivity|reflexivity].
Defined.

(** ** The encoding step *)

Section EncodedFacts.

Import Merkle.

Variable bytes : Type.
Variable encode : str -> option bytes.
Variable hexdigest : bytes -> str.

Local Abbreviation pairs := (Encoded.hash_pairs bytes encode hexdigest).
Local Abbreviation levels := (Encoded.reduce_levels bytes encode hexdigest).
Local Abbreviation enc_root_fuel :=
  (Encoded.compute_merkle_root_fuel bytes encode hexdigest).
Local Abbreviation enc_root :=
  (Encoded.compute_merkle_root bytes encode hexdigest).

(** On a level of even length the loop over the pairs returns one
    digest for each pair, or stops at a pair that does not encode. *)
Lemma encoded_pairs_even (level : list str) :
  (length level mod 2 = 0)%nat ->
  (exists new_level,
     pairs level = Value new_level /\
     (2 * length new_level = length level)%nat /\
     Forall (fun x => exists b, x = hexdigest b) new_level) \/
  pairs level = RaisedUnicodeEncodeError.
Proof.
  induction level as [| a | a b l IH] using list_pair_ind; intro Hev.
  - left. exists []. repeat split. constructor.
  - cbn in Hev. discriminate.
  - cbn [length] in Hev. rewrite mod2_SS in Hev.
    cbn [Encoded.hash_pairs]. unfold Encoded.sha256_of.
    destruct (encode (String.append a b)) as [bs|]; [|now right].
    destruct (IH Hev) as [(nl & E & Hl & Hd)|E]; rewrite E; [left|now right].
    exists (hexdigest bs :: nl). cbn [length].
    split; [reflexivity|]. split; [lia|]. constructor; [eauto|exact Hd].
Qed.

Lemma encoded_next_level (level : list str) :
  (exists new_level,
     pairs (pad_level level) = Value new_level /\
     (2 * length new_level = length level + length level mod 2)%nat /\
     Forall (fun x => exists b, x = hexdigest b) new_level) \/
  pairs (pad_level level) = RaisedUnicodeEncodeError.
Proof.
  destruct (pad_level_length level) as (Hev & Hl).
  destruct (encoded_pairs_even (pad_level level) Hev)
    as [(nl & E & Hn & Hd)|E]; [left|now right].
  exists nl. split; [exact E|]. split; [lia|exact Hd].
Qed.

(** The loop ends: on the level it was given when that is empty, on a
    level of one entry otherwise, or at a pair that does not encode. *)
Lemma encoded_levels_run (fuel : nat) : forall level,
  (length level < fuel)%nat ->
  (exists last_level,
     levels fuel level = Value last_level /\
     ((level = [] /\ last_level = []) \/
      (level <> [] /\ exists x, last_level = [x]))) \/
  levels fuel level = RaisedUnicodeEncodeError.
Proof.
  induction fuel as [|f IH]; intros level Hf; [lia|].
  cbn [Encoded.reduce_levels].
  destruct (Nat.ltb_spec 1 (length level)) as [Hl|Hl].
  - destruct (encoded_next_level level) as [(nl & E & Hn & _)|E]; rewrite E;
      [|now right].
    pose proof (mod2_cases (length level)) as Hm.
    destruct (IH nl) as [(ll & Er & Hll)|Er]; [lia| |now right].
    left. exists ll. split; [exact Er|]. right.
    split; [intros ->; cbn in Hl; lia|].
    destruct Hll as [(-> & _)|(_ & Hx)]; [cbn in Hn; lia|exact Hx].
  - left. exists level. split; [reflexivity|].
    destruct level as [|x [|y l]]; [now left| |cbn in Hl; lia].
    right. split; [discriminate|]. now exists x.
Qed.

Lemma encoded_levels_fuel (fuel fuel' : nat) : forall level,
  (length level < fuel)%nat -> (length level < fuel')%nat ->
  levels fuel level = levels fuel' level.
Proof.
  revert fuel'. induction fuel as [|f IH]; intros fuel' level Hf Hf'; [lia|].
  destruct fuel' as [|f']; [lia|]. cbn [Encoded.reduce_levels].
  destruct (Nat.ltb_spec 1 (length level)) as [Hl|Hl]; [|reflexivity].
  destruct (encoded_next_level level) as [(nl & E & Hn & _)|E]; rewrite E;
    [|reflexivity].
  pose proof (mod2_cases (length level)). apply IH; lia.
Qed.

Section Encodable.

(** Two strings that encode give a string that encodes when put end to
    end, and a digest encodes. *)
Hypothesis append_encodes :
  forall a b, encode a <> None -> encode b <> None ->
              encode (String.append a b) <> None.
Hypothesis digest_encodes : forall b, encode (hexdigest b) <> None.

Lemma encoded_pairs_encode (level : list str) :
  Forall (fun t => encode t <> None) level ->
  pairs level <> RaisedUnicodeEncodeError.
Proof.
  induction level as [| a | a b l IH] using list_pair_ind; intro Hall;
    cbn [Encoded.hash_pairs]; try discriminate.
  apply Forall_inv_tail in Hall as Hl. apply Forall_inv in Hall as Ha.
  apply Forall_inv_tail in Hl as Hl'. apply Forall_inv in Hl as Hb.
  unfold Encoded.sha256_of.
  pose proof (append_encodes a b Ha Hb) as Hab.
  destruct (encode (String.append a b)) as [bs|]; [|congruence].
  specialize (IH Hl'). destruct (pairs l); congruence.
Qed.

Lemma pad_level_encodes (level : list str) :
  Forall (fun t => encode t <> None) level ->
  Forall (fun t => encode t <> None) (pad_level level).
Proof.
  intro Hall. unfold pad_level.
  destruct (Nat.eqb_spec (length level mod 2) 0) as [E|E]; [exact Hall|].
  apply Forall_app. split; [exact Hall|].
  constructor; [|constructor].
  destruct level as [|x l]; [cbn in E; congruence|].
  rewrite Forall_forall in Hall. apply Hall.
  destruct (exists_last (l := x :: l)) as (l' & z & El); [discriminate|].
  rewrite El, last_last. apply in_or_app. right. now left.
Qed.

Lemma encoded_levels_encode (fuel : nat) : forall level,
  Forall (fun t => encode t <> None) level ->
  levels fuel level <> RaisedUnicodeEncodeError.
Proof.
  induction fuel as [|f IH]; intros level Hall; cbn [Encoded.reduce_levels];
    [discriminate|].
  destruct (1 <? length level)%nat; [|discriminate].
  destruct (encoded_next_level level) as [(nl & E & _ & Hd)|E].
  - rewrite E. apply IH. eapply Forall_impl; [|exact Hd].
    cbv beta. intros x (b & ->). apply digest_encodes.
  - exfalso. revert E. apply encoded_pairs_encode.
    now apply pad_level_encodes.
Qed.

End Encodable.

(** X6: [compute_merkle_root], with the encoding step of lines 5 and 17
    written out, ends on every list, and any fuel above the length of the
    list gives the same outcome.  It raises [IndexError] on the empty list
    and on no other (line 22 reads [current_level[0]] of an empty list).
    On a list that is not empty it returns a value as soon as its
    transactions encode (strings that encode giving one that encodes when
    put end to end, and digests encoding); a single transaction that does
    not encode makes it raise [UnicodeEncodeError]. *)
Theorem merkle_root_total (transactions : list str) (fuel : nat) :
  (length transactions < fuel)%nat ->
  enc_root_fuel fuel transactions = enc_root transactions /\
  enc_root transactions <> OutOfRounds /\
  (enc_root transactions = RaisedIndexError <-> transactions = []) /\
  ((forall a b, encode a <> None -> encode b <> None ->
                encode (String.append a b) <> None) ->
   (forall b, encode (hexdigest b) <> None) ->
   Forall (fun t => encode t <> None) transactions ->
   transactions <> [] ->
   exists r, enc_root transactions = Value r) /\
  (forall t, transactions = [t] -> encode t = None ->
             enc_root transactions = RaisedUnicodeEncodeError).
Proof.
  intro Hf.
  assert (Hcases :
    (transactions = [] /\ enc_root transactions = RaisedIndexError) \/
    (transactions <> [] /\
     ((exists r, enc_root transactions = Value r) \/
      enc_root transactions = RaisedUnicodeEncodeError))).
  { unfold Encoded.compute_merkle_root, Encoded.compute_merkle_root_fuel.
    destruct (Nat.eqb_spec (length transactions) 1) as [E1|E1].
    - right. split; [intros ->; discriminate|].
      destruct (Encoded.sha256_of _ _ _ _); [left; eauto|now right].
    - destruct (encoded_levels_run (S (length transactions)) transactions)
        as [(ll & E & [(-> & ->)|(Hne & x & ->)])|E]; [lia| | |]; rewrite E.
      + now left.
      + right. split; [exact Hne|]. left. eauto.
      + right. split; [|now right]. intros ->.
        cbn in E. discriminate. }
  split; [|split; [|split; [|split]]].
  - unfold Encoded.compute_merkle_root, Encoded.compute_merkle_root_fuel.
    destruct (length transactions =? 1)%nat; [reflexivity|].
    rewrite (encoded_levels_fuel fuel (S (length transactions))) by lia.
    reflexivity.
  - destruct Hcases as [(_ & E)|(_ & [(r & E)|E])]; rewrite E; discriminate.
  - split.
    + intro Ei.
      destruct Hcases as [(E0 & _)|(_ & [(r & E)|E])]; [exact E0| |];
        rewrite E in Ei; discriminate.
    + intros ->. reflexivity.
  - intros Happ Hdig Hall Hne.
    destruct Hcases as [(E0 & _)|(_ & [Hr|E])]; [congruence|exact Hr|].
    exfalso. revert E.
    unfold Encoded.compute_merkle_root, Encoded.compute_merkle_root_fuel.
    destruct (Nat.eqb_spec (length transactions) 1) as [E1|E1].
    + destruct transactions as [|t [|u l]]; try discriminate E1.
      cbn [nth]. unfold Encoded.sha256_of. apply Forall_inv in Hall.
      destruct (encode t); [discriminate|congruence].
    + pose proof (encoded_levels_encode Happ Hdig (S (length transactions))
                    transactions Hall) as Hl.
      destruct (levels (S (length transactions)) transactions) as [[|x l]| | |];
        congruence.
  - intros t -> Et.
    unfold Encoded.compute_merkle_root, Encoded.compute_merkle_root_fuel.
    cbn [length Nat.eqb nth]. unfold Encoded.sha256_of. now rewrite Et.
Qed.

(** On strings that all encode, the function is the one of module
    [Merkle] with the digest of the encoded string as [sha256_hex]. *)
Lemma encoded_pairs_agree (enc : str -> bytes) (level : list str) :
  (forall s, encode s = Some (enc s)) ->
  pairs level = ended_of (Merkle.hash_pairs (fun s => hexdigest (enc s)) level).
Proof.
  intro Henc.
  induction level as [| a | a b l IH] using list_pair_ind; try reflexivity.
  cbn [Encoded.hash_pairs Merkle.hash_pairs]. unfold Encoded.sha256_of.
  rewrite Henc, IH.
  destruct (Merkle.hash_pairs _ l); reflexivity.
Qed.

Lemma encoded_levels_agree (enc : str -> bytes) (fuel : nat) :
  (forall s, encode s = Some (enc s)) ->
  forall level,
  levels fuel level
  = ended_of (Merkle.reduce_levels (fun s => hexdigest (enc s)) fuel level).
Proof.
  intro Henc. induction fuel as [|f IH]; intro level; [reflexivity|].
  cbn [Encoded.reduce_levels Merkle.reduce_levels].
  destruct (1 <? length level)%nat; [|reflexivity].
  rewrite (encoded_pairs_agree enc _ Henc).
  destruct (Merkle.hash_pairs _ (pad_level level)); cbn [ended_of];
    [apply IH|reflexivity|reflexivity].
Qed.

Lemma encoded_root_agrees (enc : str -> bytes) (transactions : list str) :
  (forall s, encode s = Some (enc s)) ->
  enc_root transactions
  = ended_of (Merkle.compute_merkle_root (fun s => hexdigest (enc s))
                transactions).
Proof.
  intro Henc.
  unfold Encoded.compute_merkle_root, Encoded.compute_merkle_root_fuel,
    Merkle.compute_merkle_root, Merkle.compute_merkle_root_fuel.
  destruct (length transactions =? 1)%nat.
  - unfold Encoded.sha256_of. now rewrite Henc.
  - rewrite (encoded_levels_agree enc _ Henc).
    destruct (Merkle.reduce_levels _ _ transactions) as [[|x l]| |];
      reflexivity.
Qed.

End EncodedFacts.

Lemma merkle_root_total_witness :
  (length ["a"; "b"; "c"]%string < 10)%nat /\
  exists r,
    Merkle.Encoded.compute_merkle_root Merkle.str (fun s => Some s)
      Merkle.marked ["a"; "b"; "c"]%string
    = Merkle.Value r.
Proof.
  assert (Hf : (length ["a"; "b"; "c"]%string < 10)%nat) by (cbn; lia).
  split; [exact Hf|].
  refine (proj1 (proj2 (proj2 (proj2
            (merkle_root_total Merkle.str (fun s => Some s) Merkle.marked
               ["a"; "b"; "c"]%string 10 Hf)))) _ _ _ _).
  - intros; discriminate.
  - intros; discriminate.
  - repeat constructor; discriminate.
  - discriminate.
Defined.

Lemma merkle_root_total_aux (sha256_hex : Merkle.str -> Merkle.str)
    (transactions : list Merkle.str) :
  Merkle.compute_merkle_root sha256_hex transactions = Merkle.IndexError \/
  exists r, Merkle.compute_merkle_root sha256_hex transactions = Merkle.Returns r.
Proof.
  unfold Merkle.compute_merkle_root, Merkle.compute_merkle_root_fuel.
  destruct (length transactions =? 1)%nat; [right; eauto|].
  destruct (reduce_levels_runs sha256_hex (S (length transactions)) transactions)
    as (ll & E & [(_ & ->)|(x & -> & _)]); [lia| |]; rewrite E;
    [now left|right; eauto].
Qed.

(** ** The script around the Merkle root *)

Section MainFacts.

Import Merkle.

Variable sha256_hex : str -> str.
Variable strip : str -> str.
Variable int : str -> option Z.

Local Abbreviation test_cases := (Merkle.test_cases sha256_hex strip int).
Local Abbreviation main := (Merkle.main sha256_hex strip int).

Lemma test_cases_printed (t : nat) : forall stdin,
  (length (printed (test_cases t stdin)) <= t)%nat /\
  Forall (fun r => exists s, r = sha256_hex s) (printed (test_cases t stdin)) /\
  status (test_cases t stdin) <> Stuck /\
  (status (test_cases t stdin) = Finished ->
   length (printed (test_cases t stdin)) = t).
Proof.
  induction t as [|t IH]; intro stdin; cbn [Merkle.test_cases].
  - cbn. repeat split; [lia|constructor|discriminate].
  - destruct stdin as [|l rest];
      [cbn; repeat split; [lia|constructor|discriminate|discriminate]|].
    destruct (int (strip l)) as [N|];
      [|cbn; repeat split; [lia|constructor|discriminate|discriminate]].
    destruct (read_transactions strip (Z.to_nat N) rest) as [[ts rest']|];
      [|cbn; repeat split; [lia|constructor|discriminate|discriminate]].
    destruct (compute_merkle_root sha256_hex ts) as [r| |] eqn:Er.
    + destruct (IH rest') as (Hl & Hd & Hs & Hf). cbn [printed status length].
      split; [lia|]. split; [|split; [exact Hs|]].
      * constructor; [|exact Hd].
        exact (returned_root_is_digest sha256_hex ts r Er).
      * intro E. now rewrite (Hf E).
    + cbn. repeat split; [lia|constructor|discriminate|discriminate].
    + exfalso.
      destruct (merkle_root_total_aux sha256_hex ts) as [E|[r E]];
        rewrite E in Er; discriminate.
Qed.

(** X12: a run of [main] whose first line reads as the integer [T]
    prints at most [T] lines, each of them a digest, and exactly [T] lines
    when it ends without an error. *)
Theorem main_prints_a_root_per_case (l : str) (rest : list str) (T : Z) :
  int (strip l) = Some T ->
  (length (printed (main (l :: rest))) <= Z.to_nat T)%nat /\
  Forall (fun r => exists s, r = sha256_hex s) (printed (main (l :: rest))) /\
  (status (main (l :: rest)) = Finished ->
   length (printed (main (l :: rest))) = Z.to_nat T).
Proof.
  intro E. unfold Merkle.main. rewrite E.
  destruct (test_cases_printed (Z.to_nat T) rest) as (Hl & Hd & _ & Hf).
  now repeat split.
Qed.

Lemma read_no_transactions (N : Z) (stdin : list str) :
  (N <= 0)%Z -> read_transactions strip (Z.to_nat N) stdin = Some ([], stdin).
Proof.
  intro HN. replace (Z.to_nat N) with 0%nat by lia. reflexivity.
Qed.

(** X13: a test case that announces no transactions ([N <= 0]) ends the
    run with [IndexError]: [compute_merkle_root] is called on the empty
    list.  Here for the first test case, and for any later one as the
    loop reaches it. *)
Theorem main_fails_on_empty_case (l n : str) (rest : list str) (T N : Z) :
  int (strip l) = Some T -> (1 <= T)%Z ->
  int (strip n) = Some N -> (N <= 0)%Z ->
  main (l :: n :: rest) = mkRun [] IndexErrorExit /\
  forall t, test_cases (S t) (n :: rest) = mkRun [] IndexErrorExit.
Proof.
  intros ET HT EN HN.
  assert (Hc : forall t, test_cases (S t) (n :: rest) = mkRun [] IndexErrorExit).
  { intro t. cbn [Merkle.test_cases]. rewrite EN.
    rewrite read_no_transactions by exact HN. reflexivity. }
  split; [|exact Hc].
  unfold Merkle.main. rewrite ET.
  destruct (Z.to_nat T) as [|t] eqn:Et; [lia|]. apply Hc.
Qed.

End MainFacts.

Lemma main_prints_a_root_per_case_witness :
  Merkle.decimal (Merkle.unpadded "2"%string) = Some 2%Z /\
  length (Merkle.printed
            (Merkle.main Merkle.marked Merkle.unpadded Merkle.decimal
               ["2"; "1"; "tx"; "3"; "a"; "b"; "c"]%string)) = 2%nat.
Proof.
  split; [reflexivity|].
  exact (proj2 (proj2 (main_prints_a_root_per_case
                         Merkle.marked Merkle.unpadded Merkle.decimal
                         "2"%string ["1"; "tx"; "3"; "a"; "b"; "c"]%string 2%Z
                         eq_refl)) eq_refl).
Defined.

Lemma main_fails_on_empty_case_witness :
  Merkle.main Merkle.marked Merkle.unpadded Merkle.decimal
    ["2"; "0"; "1"; "tx"]%string
  = Merkle.mkRun [] Merkle.IndexErrorExit.
Proof.
  refine (proj1 (main_fails_on_empty_case
                   Merkle.marked Merkle.unpadded Merkle.decimal
                   "2"%string "0"%string ["1"; "tx"]%string 2%Z 0%Z
                   eq_refl _ eq_refl _)); lia.
Defined.

(** * The scan of the request log *)

Section SqlFacts.

Import Sql.

Variable number : Type.
Variable timestamp : Type.
Variable number_lt : number -> number -> bool.

Local Abbreviation row := (Sql.row number timestamp).
Local Abbreviation attempt := (Sql.attempt number timestamp).
Local Abbreviation summary := (Sql.summary number_lt).
Local Abbreviation script := (Sql.script number_lt).

Local Infix "+++" := String.append (at level 60, right associativity).

Lemma startswith_spec (p : str) : forall s,
  startswith s p = true <-> exists b, s = p +++ b.
Proof.
  induction p as [|a p IH]; intro s; cbn [startswith String.append].
  - split; [intros _; now exists s|reflexivity].
  - destruct s as [|b s].
    + split; [discriminate|intros (x & E); discriminate].
    + rewrite andb_true_iff, Ascii.eqb_eq, IH. split.
      * intros (-> & x & ->). eauto.
      * intros (x & E). injection E as -> ->. eauto.
Qed.

Lemma contains_spec (p s : str) :
  contains p s = true <-> exists a b, s = a +++ (p +++ b).
Proof.
  induction s as [|c s IH]; cbn [contains];
    rewrite orb_true_iff, startswith_spec.
  - split.
    + intros [(b & E)|F]; [|discriminate].
      exists String.EmptyString, b. exact E.
    + intros (a & b & E). left.
      destruct a as [|c a]; cbn [String.append] in E; [eauto|discriminate].
  - rewrite IH. split.
    + intros [(b & E)|(a & b & E)].
      * exists String.EmptyString, b. exact E.
      * exists (String.String c a), b. cbn [String.append]. now rewrite E.
    + intros (a & b & E).
      destruct a as [|c' a]; cbn [String.append] in E; [left; eauto|].
      right. injection E as -> E. eauto.
Qed.

Lemma contains_trans (p q s : str) :
  contains p q = true -> contains q s = true -> contains p s = true.
Proof.
  rewrite !contains_spec. intros (a & b & ->) (a' & b' & ->).
  exists (a' +++ a), (b +++ b').
  now rewrite !string_append_assoc.
Qed.

Lemma lower_app (a b : str) : lower (a +++ b) = lower a +++ lower b.
Proof.
  induction a as [|c a IH]; cbn [lower String.append]; [reflexivity|].
  now rewrite IH.
Qed.

Lemma lower_split (s : str) : forall x y,
  lower s = x +++ y ->
  exists s1 s2, s = s1 +++ s2 /\ lower s1 = x /\ lower s2 = y.
Proof.
  induction s as [|c s IH]; intros x y E.
  - destruct x as [|d x]; cbn [lower String.append] in E; [|discriminate].
    exists String.EmptyString, String.EmptyString. now repeat split.
  - destruct x as [|d x]; cbn [String.append] in E.
    + exists String.EmptyString, (String.String c s). now repeat split.
    + cbn [lower] in E. injection E as Ec E.
      destruct (IH _ _ E) as (s1 & s2 & -> & <- & <-).
      exists (String.String c s1), s2. cbn [lower String.append].
      now rewrite Ec.
Qed.

Lemma any_pattern_in_spec (pats : list str) (payload : str) :
  any_pattern_in pats payload = true <->
  exists pat, In pat pats /\ contains (lower pat) (lower payload) = true.
Proof.
  induction pats as [|q pats IH]; cbn [any_pattern_in In].
  - split; [discriminate|intros (pat & [] & _)].
  - destruct (contains (lower q) (lower payload)) eqn:E.
    + split; [|reflexivity]. intros _. exists q. now split; [left|].
    + rewrite IH. split.
      * intros (pat & Hin & Hc). exists pat. now split; [right|].
      * intros (pat & [->|Hin] & Hc); [congruence|eauto].
Qed.

(** X14: the first pattern, [UNION SELECT], never decides a call: a
    payload that holds it holds [SELECT] as well, so the function is the
    loop over the twelve patterns that follow. *)
Theorem union_select_is_redundant (payload : str) :
  is_sql_injection payload = any_pattern_in (tl patterns) payload.
Proof.
  unfold is_sql_injection, patterns. cbn [tl].
  change (any_pattern_in ("UNION SELECT"%string :: ?l) payload)
    with (if contains (lower "UNION SELECT"%string) (lower payload) then true
          else any_pattern_in l payload).
  destruct (contains (lower "UNION SELECT"%string) (lower payload)) eqn:E;
    [|reflexivity].
  symmetry. apply any_pattern_in_spec. exists "SELECT"%string. split.
  - cbn [In]. tauto.
  - eapply contains_trans; [|exact E]. reflexivity.
Qed.

(** X15: what [is_sql_injection] decides: the payload holds, somewhere,
    a piece that agrees with one of the patterns once both are written in
    lower case. *)
Theorem is_sql_injection_spec (payload : str) :
  is_sql_injection payload = true <->
  exists pat a p b,
    In pat patterns /\ payload = a +++ (p +++ b) /\ lower p = lower pat.
Proof.
  unfold is_sql_injection. rewrite any_pattern_in_spec. split.
  - intros (pat & Hin & Hc). apply contains_spec in Hc.
    destruct Hc as (x & y & E).
    destruct (lower_split _ _ _ E) as (a & s2 & -> & _ & E2).
    destruct (lower_split _ _ _ E2) as (p & b & -> & Ep & _).
    exists pat, a, p, b. now repeat split.
  - intros (pat & a & p & b & Hin & -> & Ep). exists pat. split; [exact Hin|].
    apply contains_spec. exists (lower a), (lower b).
    now rewrite !lower_app, Ep.
Qed.

Lemma isspace_lower_char (c : Ascii.ascii) :
  isspace (lower_char c) = isspace c.
Proof.
  destruct c as [[] [] [] [] [] [] [] []]; reflexivity.
Qed.

Lemma blank_free_app (a b : str) :
  blank_free (a +++ b) = blank_free a && blank_free b.
Proof.
  induction a as [|c a IH]; cbn [blank_free String.append]; [reflexivity|].
  now rewrite IH, andb_assoc.
Qed.

Lemma blank_free_lower (s : str) : blank_free (lower s) = blank_free s.
Proof.
  induction s as [|c s IH]; cbn [blank_free lower]; [reflexivity|].
  now rewrite isspace_lower_char, IH.
Qed.

Lemma contains_blank_free (p s : str) :
  contains p s = true -> blank_free s = true -> blank_free p = true.
Proof.
  rewrite contains_spec. intros (a & b & ->).
  rewrite !blank_free_app, !andb_true_iff. tauto.
Qed.

Lemma split_from_words (s : str) : forall word,
  blank_free word = true ->
  Forall (fun t => t <> String.EmptyString /\ blank_free t = true)
         (split_from word s).
Proof.
  induction s as [|c s IH]; intros word Hw; cbn [split_from].
  - destruct word; constructor; [|constructor].
    split; [discriminate|exact Hw].
  - destruct (isspace c) eqn:Ec.
    + destruct word; [now apply IH|].
      constructor; [split; [discriminate|exact Hw]|now apply IH].
    + apply IH. rewrite blank_free_app, Hw. cbn [blank_free]. now rewrite Ec.
Qed.

Lemma row_attempt_uri (r : row) (x : attempt) :
  row_attempt r = Some x ->
  no_of x = row_no r /\ ip_of x = row_source r /\
  uri_of x = nth 1 (split (row_info r)) String.EmptyString /\
  uri_of x <> String.EmptyString /\ blank_free (uri_of x) = true /\
  is_sql_injection (uri_of x) = true.
Proof.
  unfold row_attempt.
  pose proof (split_from_words (row_info r) String.EmptyString eq_refl) as Hw.
  fold (split (row_info r)) in Hw.
  destruct (split (row_info r)) as [|method [|uri [|http_ver parts]]];
    try discriminate.
  destruct (existsb (String.eqb method) methods
            && startswith http_ver "HTTP"%string); [|discriminate].
  destruct (is_sql_injection uri) eqn:Ei; [|discriminate].
  intro E. injection E as <-.
  apply Forall_inv_tail, Forall_inv in Hw. destruct Hw as (Hne & Hb).
  cbn [no_of ip_of uri_of fst snd nth]. now repeat split.
Qed.

Lemma blank_free_match (uri : str) :
  blank_free uri = true -> is_sql_injection uri = true ->
  any_pattern_in (filter blank_free patterns) uri = true.
Proof.
  intros Hb Hi. unfold is_sql_injection in Hi.
  apply any_pattern_in_spec in Hi. destruct Hi as (pat & Hin & Hc).
  apply any_pattern_in_spec. exists pat. split; [|exact Hc].
  apply filter_In. split; [exact Hin|].
  rewrite <- blank_free_lower.
  apply (contains_blank_free _ _ Hc). now rewrite blank_free_lower.
Qed.

(** X16: the loop over the rows hands [is_sql_injection] a word of
    [split()], so a recorded URI is not empty, holds no white space, and
    was flagged by one of the ten patterns without a blank: [UNION SELECT],
    [or 1=1] and [exec xp_] never flag a row. *)
Theorem scan_records_blank_free_uris (rows : list row) :
  Forall (fun x =>
            uri_of x <> String.EmptyString /\
            blank_free (uri_of x) = true /\
            any_pattern_in (filter blank_free patterns) (uri_of x) = true)
         (scan rows).
Proof.
  induction rows as [|r rows IH]; cbn [scan]; [constructor|].
  destruct (row_attempt r) as [x|] eqn:E; [|exact IH].
  constructor; [|exact IH].
  destruct (row_attempt_uri r x E) as (_ & _ & _ & Hne & Hb & Hi).
  split; [exact Hne|]. split; [exact Hb|]. now apply blank_free_match.
Qed.

(** X17: the recorded attempts follow the rows: their numbers and
    sources are those of a subsequence of the rows, in the order of the
    file, so there are no more attempts than rows. *)
Theorem scan_follows_the_rows (rows : list row) :
  subseq (map (fun x => (no_of x, ip_of x)) (scan rows))
         (map (fun r => (row_no r, row_source r)) rows) /\
  (length (scan rows) <= length rows)%nat.
Proof.
  induction rows as [|r rows [IH IHl]]; cbn [scan map length].
  - split; [constructor|lia].
  - destruct (row_attempt r) as [x|] eqn:E.
    + destruct (row_attempt_uri r x E) as (En & Ei & _).
      cbn [map length]. rewrite En, Ei. split; [|lia].
      now apply subseq_keep.
    + split; [|lia]. now apply subseq_skip.
Qed.

Lemma count_colons_from (l : list attempt) : forall n,
  fold_left (fun n x => if has_colon x then S n else n) l n
  = (n + length (filter has_colon l))%nat.
Proof.
  induction l as [|x l IH]; intro n; cbn [fold_left filter length]; [lia|].
  rewrite IH. destruct (has_colon x); cbn [length]; lia.
Qed.

Lemma filter_length_perm {A : Type} (f : A -> bool) (l m : list A) :
  Permutation l m -> length (filter f l) = length (filter f m).
Proof.
  induction 1 as [|x l m _ IH|x y l|l m k _ IH1 _ IH2]; cbn [filter].
  - reflexivity.
  - destruct (f x); cbn [length]; now rewrite IH.
  - destruct (f x), (f y); reflexivity.
  - now rewrite IH1.
Qed.

Lemma sorted_last {A : Type} (R : A -> A -> Prop) (l : list A) (d : A) :
  StronglySorted R l -> forall y, In y l -> y = last l d \/ R y (last l d).
Proof.
  induction 1 as [|a l Hs IH Ha]; intros y Hy; [destruct Hy|].
  destruct l as [|b l]; [destruct Hy as [->|[]]; now left|].
  change (last (a :: b :: l) d) with (last (b :: l) d).
  destruct Hy as [<-|Hy]; [|now apply IH].
  right. rewrite Forall_forall in Ha. apply Ha.
  destruct (exists_last (l := b :: l)) as (l' & z & E); [discriminate|].
  rewrite E, last_last. apply in_or_app. right. now left.
Qed.

(** [<] on the numbers of the attempts of a list is a strict weak
    order. *)
Local Abbreviation ordered_numbers :=
  (fun l : list attempt =>
     (forall x y, In x l -> In y l ->
        number_lt (no_of x) (no_of y) = true ->
        number_lt (no_of y) (no_of x) = false) /\
     (forall x y z, In x l -> In y l -> In z l ->
        number_lt (no_of y) (no_of x) = false ->
        number_lt (no_of z) (no_of y) = false ->
        number_lt (no_of z) (no_of x) = false)).

Lemma sorted_by_number (l : list attempt) :
  ordered_numbers l ->
  StronglySorted (fun u v => number_lt (no_of v) (no_of u) = false)
                 (sort_by (fun a b => number_lt (no_of a) (no_of b)) l).
Proof.
  intros (Hasym & Htrans).
  apply (sort_by_sorted_on (fun a b => number_lt (no_of a) (no_of b))
                           (fun x => In x l)).
  - intros x y. apply Hasym.
  - intros x y z. apply Htrans.
  - apply Forall_forall. auto.
Qed.

Lemma number_irrefl (l : list attempt) (x : attempt) :
  ordered_numbers l -> In x l -> number_lt (no_of x) (no_of x) = false.
Proof.
  intros (Hasym & _) Hx.
  destruct (number_lt (no_of x) (no_of x)) eqn:E; [|reflexivity].
  rewrite <- E. now apply Hasym.
Qed.

Lemma summary_ends (attempts : list attempt) :
  attempts <> [] -> ordered_numbers attempts ->
  total_attempts (summary attempts) = length attempts /\
  count_colon (summary attempts) = length (filter has_colon attempts) /\
  (exists x, In x attempts /\
     attacker_ip (summary attempts) = Some (ip_of x) /\
     first_payload (summary attempts) = Some (uri_of x) /\
     forall y, In y attempts -> number_lt (no_of y) (no_of x) = false) /\
  (exists z, In z attempts /\
     last_payload (summary attempts) = Some (uri_of z) /\
     forall y, In y attempts -> number_lt (no_of z) (no_of y) = false).
Proof.
  intros Hne Hord. destruct attempts as [|x0 rest]; [congruence|].
  unfold Sql.summary.
  set (l := x0 :: rest) in *.
  set (sorted := sort_by (fun a b => number_lt (no_of a) (no_of b)) l).
  cbn [total_attempts count_colon attacker_ip first_payload last_payload].
  assert (Hp : Permutation sorted l) by apply sort_by_perm.
  pose proof (sorted_by_number l Hord) as Hs. fold sorted in Hs.
  split; [now apply Permutation_length|].
  split; [unfold count_colons; rewrite count_colons_from;
          now apply filter_length_perm|].
  split.
  - destruct sorted as [|h t] eqn:Es;
      [apply Permutation_length in Hp; discriminate|].
    assert (Hh : In h l) by (eapply Permutation_in; [exact Hp|now left]).
    exists h. cbn [hd].
    split; [exact Hh|]. split; [reflexivity|]. split; [reflexivity|].
    intros y Hy. apply (Permutation_in _ (Permutation_sym Hp)) in Hy.
    apply StronglySorted_inv in Hs. destruct Hs as [_ Hall].
    destruct Hy as [<-|Hy]; [now apply (number_irrefl l)|].
    rewrite Forall_forall in Hall. now apply Hall.
  - exists (last sorted x0).
    assert (Hl : In (last sorted x0) sorted).
    { destruct (exists_last (l := sorted)) as (l' & z & E).
      - intros E. rewrite E in Hp. apply Permutation_length in Hp. discriminate.
      - rewrite E, last_last. apply in_or_app. right. now left. }
    assert (Hz : In (last sorted x0) l)
      by (eapply Permutation_in; [exact Hp|exact Hl]).
    split; [exact Hz|]. split; [reflexivity|].
    intros y Hy. apply (Permutation_in _ (Permutation_sym Hp)) in Hy.
    destruct (sorted_last _ sorted x0 Hs y Hy) as [->|Hle];
      [now apply (number_irrefl l)|exact Hle].
Qed.

(** X18: the report on a list of attempts that is not empty and on whose
    numbers [<] is a strict weak order (as it is on integers, and on
    floats none of which is NaN): the total is its length; the count of
    the fifth answer is the number of attempts whose URI holds [:] or
    [0x3a]; the address and the first payload are those of one attempt
    than whose number none is less, the last payload that of an attempt
    whose number is less than none. *)
Theorem summary_of_attempts (attempts : list attempt) :
  attempts <> [] ->
  (forall x y, In x attempts -> In y attempts ->
     number_lt (no_of x) (no_of y) = true ->
     number_lt (no_of y) (no_of x) = false) ->
  (forall x y z, In x attempts -> In y attempts -> In z attempts ->
     number_lt (no_of y) (no_of x) = false ->
     number_lt (no_of z) (no_of y) = false ->
     number_lt (no_of z) (no_of x) = false) ->
  total_attempts (summary attempts) = length attempts /\
  count_colon (summary attempts) = length (filter has_colon attempts) /\
  (exists x, In x attempts /\
     attacker_ip (summary attempts) = Some (ip_of x) /\
     first_payload (summary attempts) = Some (uri_of x) /\
     forall y, In y attempts -> number_lt (no_of y) (no_of x) = false) /\
  (exists z, In z attempts /\
     last_payload (summary attempts) = Some (uri_of z) /\
     forall y, In y attempts -> number_lt (no_of z) (no_of y) = false).
Proof.
  intros Hne Hasym Htrans. apply summary_ends; [exact Hne|].
  split; [exact Hasym|exact Htrans].
Qed.

Lemma scan_in (rows : list row) (x : attempt) :
  In x (scan rows) <-> exists r, In r rows /\ row_attempt r = Some x.
Proof.
  induction rows as [|r rows IH]; cbn [scan In].
  - split; [intros []|intros (r & [] & _)].
  - destruct (row_attempt r) as [x'|] eqn:E; [cbn [In]|]; rewrite IH; split.
    + intros [<-|(r' & Hin & Er)]; [exists r; now split; [left|]|].
      exists r'. now split; [right|].
    + intros (r' & [<-|Hin] & Er); [left; congruence|right; eauto].
    + intros (r' & Hin & Er). exists r'. now split; [right|].
    + intros (r' & [<-|Hin] & Er); [congruence|eauto].
Qed.

(** X19: the whole script, on rows of which at least one is recorded and
    with [<] a strict weak order on the numbers of the recorded rows: the
    address printed is the source of a recorded row than whose number
    that of no recorded row is less, the first payload is the second word
    of that row's [Info], and the total does not exceed the number of
    rows. *)
Theorem script_names_the_earliest_row (rows : list row) :
  scan rows <> [] ->
  (forall x y, In x (scan rows) -> In y (scan rows) ->
     number_lt (no_of x) (no_of y) = true ->
     number_lt (no_of y) (no_of x) = false) ->
  (forall x y z, In x (scan rows) -> In y (scan rows) -> In z (scan rows) ->
     number_lt (no_of y) (no_of x) = false ->
     number_lt (no_of z) (no_of y) = false ->
     number_lt (no_of z) (no_of x) = false) ->
  (total_attempts (script rows) <= length rows)%nat /\
  exists r, In r rows /\ row_attempt r <> None /\
    attacker_ip (script rows) = Some (row_source r) /\
    first_payload (script rows)
    = Some (nth 1 (split (row_info r)) String.EmptyString) /\
    forall r', In r' rows -> row_attempt r' <> None ->
               number_lt (row_no r') (row_no r) = false.
Proof.
  intros Hne Hasym Htrans. unfold Sql.script.
  destruct (summary_ends (scan rows) Hne (conj Hasym Htrans))
    as (Et & _ & (x & Hx & Ea & Ef & Hmin) & _).
  split.
  - rewrite Et. clear. induction rows as [|r rows IH]; cbn [scan length]; [lia|].
    destruct (row_attempt r); cbn [length]; lia.
  - apply scan_in in Hx. destruct Hx as (r & Hr & Er).
    destruct (row_attempt_uri r x Er) as (En & Ei & Eu & _).
    exists r. split; [exact Hr|]. split; [congruence|].
    split; [now rewrite Ea, Ei|]. split; [now rewrite Ef, Eu|].
    intros r' Hr' Hn'. destruct (row_attempt r') as [y|] eqn:Ey; [|congruence].
    destruct (row_attempt_uri r' y Ey) as (<- & _). rewrite <- En.
    apply Hmin. apply scan_in. eauto.
Qed.

End SqlFacts.

Lemma Zltb_asym (x y : Z) : (x <? y)%Z = true -> (y <? x)%Z = false.
Proof. intro H. apply Z.ltb_lt in H. apply Z.ltb_ge. lia. Qed.

Lemma Zgeb_trans (x y z : Z) :
  (y <? x)%Z = false -> (z <? y)%Z = false -> (z <? x)%Z = false.
Proof. intros H1 H2. apply Z.ltb_ge in H1, H2. apply Z.ltb_ge. lia. Qed.

Lemma summary_of_attempts_witness :
  Sql.total_attempts
    (Sql.summary Z.ltb
       [(3%Z, tt, "10.0.0.7", "/item?id=1%27")%string;
        (1%Z, tt, "10.0.0.7", "/item?id=1'--")%string])
  = 2%nat.
Proof.
  refine (proj1 (summary_of_attempts Z unit Z.ltb
                   [(3%Z, tt, "10.0.0.7", "/item?id=1%27")%string;
                    (1%Z, tt, "10.0.0.7", "/item?id=1'--")%string] _ _ _)).
  - discriminate.
  - intros x y _ _. apply Zltb_asym.
  - intros x y z _ _ _. apply Zgeb_trans.
Defined.

Lemma script_names_the_earliest_row_witness :
  (Sql.total_attempts
     (Sql.script Z.ltb
        [Sql.mkRow 7%Z tt "10.0.0.7" "GET /item?id=1%27 HTTP/1.1";
         Sql.mkRow 4%Z tt "10.0.0.9" "GET /index.html HTTP/1.1";
         Sql.mkRow 2%Z tt "10.0.0.7" "POST /item?id=2'-- HTTP/1.1"]%string)
   <= 3)%nat.
Proof.
  refine (proj1 (script_names_the_earliest_row Z unit Z.ltb
                   [Sql.mkRow 7%Z tt "10.0.0.7" "GET /item?id=1%27 HTTP/1.1";
                    Sql.mkRow 4%Z tt "10.0.0.9" "GET /index.html HTTP/1.1";
                    Sql.mkRow 2%Z tt "10.0.0.7" "POST /item?id=2'-- HTTP/1.1"]%string
                   _ _ _)).
  - vm_compute. discriminate.
  - intros x y _ _. apply Zltb_asym.
  - intros x y z _ _ _. apply Zgeb_trans.
Defined.
